(** * Mobile navigation toggle and DOM utilities: a shallow embedding

    The development follows the two scripts of the site:
    - the navigation script ([init], [toggleMenu], [closeMenu] and the
      listeners bound by [init]);
    - [js/utils.js] ([debounce], [copyToClipboard], [getBreakpoint]).

    The browser is modelled by the part of the DOM the scripts read and
    write, a registry of event listeners, and a table of timers driven by a
    logical clock counting milliseconds. *)

From Stdlib Require Import ZArith Lia.
From stdpp Require Import gmap strings list.

Local Open Scope string_scope.
Local Open Scope list_scope.
Local Open Scope nat_scope.

(** ** Completions

    A JavaScript function body either runs to its end or is abandoned by an
    exception (here always the [TypeError] of a property read on [null]).
    Mutations performed before the exception stay, so both completions carry
    the state. *)

Inductive completion (A : Type) : Type :=
| Returns (a : A)
| Throws (a : A).
Arguments Returns {A} a.
Arguments Throws {A} a.

Definition state_of {A} (c : completion A) : A :=
  match c with Returns a => a | Throws a => a end.

(** ** DOMTokenList ([element.classList])

    An ordered set of tokens. [toggle] without its second argument removes
    a token that is present and answers [false], appends one that is absent
    and answers [true]. *)

Module ClassList.

Definition contains (tok : string) (cl : list string) : bool :=
  bool_decide (tok ∈ cl).

Definition remove (tok : string) (cl : list string) : list string :=
  filter (λ c, c ≠ tok) cl.

Definition toggle (tok : string) (cl : list string) : bool * list string :=
  if contains tok cl then (false, remove tok cl) else (true, cl ++ [tok]).

(** [add] appends a token that is absent and leaves the list alone
    otherwise. *)
Definition add (tok : string) (cl : list string) : list string :=
  if contains tok cl then cl else cl ++ [tok].

End ClassList.

(** ** Elements and the page *)

Record element : Type := Element {
  classList : list string;
  attributes : gmap string string
}.

Definition setAttribute (name value : string) (e : element) : element :=
  {| classList := classList e; attributes := <[name := value]> (attributes e) |}.

Definition getAttribute (name : string) (e : element) : option string :=
  attributes e !! name.

Definition with_classList (cl : list string) (e : element) : element :=
  {| classList := cl; attributes := attributes e |}.

(** [setAttribute] converts its value argument with ToString; [toggleMenu]
    passes the boolean answered by [classList.toggle]. *)
Definition ToString_bool (b : bool) : string := if b then "true" else "false".

(** Nodes that receive events or focus. *)
Inductive node : Type :=
| Window
| Document
| Body
| Nav
| NavToggle
| NavList
| NavLink (i : nat)
| Other (i : nat).

Global Instance node_eq_dec : EqDecision node.
Proof. solve_decision. Defined.

(** The part of the document the navigation script touches.
    [nav], [nav__toggle] and [nav__list] are what
    [document.querySelector] answers for ['.nav'], ['.nav__toggle'] and
    ['.nav__list'] ([None] for [null]); [nav__links] are the nodes answered
    by [navMenu.querySelectorAll('.nav__link')]. The toggle and the menu are
    taken to be two different elements. *)
Record page : Type := Page {
  nav : bool;
  nav__toggle : option element;
  nav__list : option element;
  nav__links : list node;
  body_overflow : string;
  activeElement : node;
  innerWidth : Z
}.

Definition set_nav__toggle (e : element) (p : page) : page :=
  {| nav := nav p; nav__toggle := Some e; nav__list := nav__list p;
     nav__links := nav__links p; body_overflow := body_overflow p;
     activeElement := activeElement p; innerWidth := innerWidth p |}.

Definition set_nav__list (e : element) (p : page) : page :=
  {| nav := nav p; nav__toggle := nav__toggle p; nav__list := Some e;
     nav__links := nav__links p; body_overflow := body_overflow p;
     activeElement := activeElement p; innerWidth := innerWidth p |}.

Definition set_body_overflow (v : string) (p : page) : page :=
  {| nav := nav p; nav__toggle := nav__toggle p; nav__list := nav__list p;
     nav__links := nav__links p; body_overflow := v;
     activeElement := activeElement p; innerWidth := innerWidth p |}.

Definition set_activeElement (n : node) (p : page) : page :=
  {| nav := nav p; nav__toggle := nav__toggle p; nav__list := nav__list p;
     nav__links := nav__links p; body_overflow := body_overflow p;
     activeElement := n; innerWidth := innerWidth p |}.

Definition set_innerWidth (w : Z) (p : page) : page :=
  {| nav := nav p; nav__toggle := nav__toggle p; nav__list := nav__list p;
     nav__links := nav__links p; body_overflow := body_overflow p;
     activeElement := activeElement p; innerWidth := w |}.

(** ** [toggleMenu] and [closeMenu] *)

Definition toggleMenu (p : page) : completion page :=
  let navToggle := nav__toggle p in
  match nav__list p with
  | None => Throws p
  | Some navMenu =>
    let '(isOpen, cl) := ClassList.toggle "nav__list--open" (classList navMenu) in
    let p1 := set_nav__list (with_classList cl navMenu) p in
    match navToggle with
    | None => Throws p1
    | Some tg =>
      let tg1 := with_classList
                   (ClassList.toggle "nav__toggle--open" (classList tg)).2 tg in
      let tg2 := setAttribute "aria-expanded" (ToString_bool isOpen) tg1 in
      let p2 := set_nav__toggle tg2 p1 in
      Returns (set_body_overflow (if isOpen then "hidden" else "") p2)
    end
  end.

Definition closeMenu (p : page) : completion page :=
  let navToggle := nav__toggle p in
  match nav__list p with
  | None => Throws p
  | Some navMenu =>
    let p1 := set_nav__list
                (with_classList
                   (ClassList.remove "nav__list--open" (classList navMenu))
                   navMenu) p in
    match navToggle with
    | None => Throws p1
    | Some tg =>
      let tg1 := with_classList
                   (ClassList.remove "nav__toggle--open" (classList tg)) tg in
      let tg2 := setAttribute "aria-expanded" "false" tg1 in
      let p2 := set_nav__toggle tg2 p1 in
      Returns (set_body_overflow "" p2)
    end
  end.

(** *** The four reflections of the menu state *)

Definition has_class (tok : string) (e : option element) : bool :=
  match e with
  | Some e => ClassList.contains tok (classList e)
  | None => false
  end.

Definition menu_open (p : page) : bool := has_class "nav__list--open" (nav__list p).
Definition toggle_open (p : page) : bool := has_class "nav__toggle--open" (nav__toggle p).
Definition aria_expanded (p : page) : option string :=
  e ← nav__toggle p; getAttribute "aria-expanded" e.

Definition elements_exist (p : page) : Prop :=
  is_Some (nav__toggle p) ∧ is_Some (nav__list p).

(** The closed state in full. *)
Definition closed (p : page) : Prop :=
  menu_open p = false ∧ toggle_open p = false ∧
  aria_expanded p = Some "false" ∧ body_overflow p = "".

(** The open state in full. *)
Definition opened (p : page) : Prop :=
  menu_open p = true ∧ toggle_open p = true ∧
  aria_expanded p = Some "true" ∧ body_overflow p = "hidden".


(** What a call of [toggleMenu] or [closeMenu] leaves alone. *)
Definition same_frame (p p' : page) : Prop :=
  nav p' = nav p ∧ nav__links p' = nav__links p ∧
  activeElement p' = activeElement p ∧ innerWidth p' = innerWidth p ∧
  elements_exist p'.

(** ** Timers and the event loop

    [setTimeout] and [clearTimeout] act on a table of pending timers. The
    clock is logical and counts milliseconds; a timer runs exactly when its
    delay has elapsed, the earliest first and, among timers due at the same
    instant, the one registered first. Timer identifiers are never reused.
    [U] is the state of the script that owns the timers and [cb] the type of
    the closures it hands to [setTimeout]. *)

Section EventLoop.

Context {U cb : Type}.

Record timer : Type := Timer {
  timer_id : nat;
  due : nat;
  callback : cb
}.

Record runtime : Type := Runtime {
  now : nat;
  next_id : nat;
  pending : list timer;
  user : U
}.

Definition set_user (u : U) (r : runtime) : runtime :=
  {| now := now r; next_id := next_id r; pending := pending r; user := u |}.

Definition set_now (t : nat) (r : runtime) : runtime :=
  {| now := t; next_id := next_id r; pending := pending r; user := user r |}.

Definition set_pending (l : list timer) (r : runtime) : runtime :=
  {| now := now r; next_id := next_id r; pending := l; user := user r |}.

Definition setTimeout (f : cb) (delay : nat) (r : runtime) : nat * runtime :=
  (next_id r,
   {| now := now r; next_id := S (next_id r);
      pending := pending r ++ [Timer (next_id r) (now r + delay) f];
      user := user r |}).

(** [clearTimeout(undefined)] and [clearTimeout] of a timer that has already
    run or been cleared do nothing. *)
Definition clearTimeout (id : option nat) (r : runtime) : runtime :=
  match id with
  | None => r
  | Some i => set_pending (filter (λ x, timer_id x ≠ i) (pending r)) r
  end.

Fixpoint earliest (l : list timer) : option timer :=
  match l with
  | [] => None
  | x :: l' =>
    match earliest l' with
    | Some y => if due y <? due x then Some y else Some x
    | None => Some x
    end
  end.

Definition next_due (T : nat) (r : runtime) : option timer :=
  match earliest (pending r) with
  | Some x => if due x <=? T then Some x else None
  | None => None
  end.

(** How a callback acts on the runtime. *)
Variable run : cb → runtime → runtime.

Definition fire (x : timer) (r : runtime) : runtime :=
  run (callback x)
      (set_now (Nat.max (now r) (due x))
         (set_pending (filter (λ y, timer_id y ≠ timer_id x) (pending r)) r)).

(** Let the clock reach [T], running the timers that fall due on the way.
    [None] when [fuel] timers have run and another one is due. *)
Fixpoint advance (fuel : nat) (T : nat) (r : runtime) : option runtime :=
  match next_due T r with
  | None => Some (set_now (Nat.max (now r) T) r)
  | Some x =>
    match fuel with
    | 0 => None
    | S fuel' => advance fuel' T (fire x r)
    end
  end.

(** The callbacks of both scripts register no timer, so one unit of fuel
    per pending timer is enough (see [elapse_total]). *)
Definition elapse (ms : nat) (r : runtime) : option runtime :=
  advance (length (pending r)) (now r + ms) r.

End EventLoop.

Arguments timer : clear implicits.
Arguments runtime : clear implicits.

(** ** The navigation script *)

(** The functions [init] binds as listeners: the two named functions and
    the three anonymous ones, in the order of the source. *)
Inductive handler : Type :=
| HToggleMenu
| HCloseMenu
| HOutsideClick
| HEscape
| HResize.

(** The one closure the script passes to [setTimeout]. *)
Inductive nav_callback : Type :=
| ResizeCheck.

Record listener : Type := Listener {
  target : node;
  on : string;
  fn : handler
}.

(** State of the script and of the page. [transitions] and [uncaught] are
    not program state: the first records the page after each call of
    [toggleMenu] or [closeMenu], the second counts the exceptions that
    escaped a listener or a timer callback. *)
Record nav_state : Type := NavState {
  doc : page;
  listeners : list listener;
  resizeTimer : option nat;
  transitions : list page;
  uncaught : nat
}.

Abbreviation world := (runtime nav_state nav_callback).

Definition page_of (w : world) : page := doc (user w).

Definition set_doc (p : page) (w : world) : world :=
  set_user {| doc := p; listeners := listeners (user w);
              resizeTimer := resizeTimer (user w);
              transitions := transitions (user w);
              uncaught := uncaught (user w) |} w.

Definition set_resizeTimer (id : option nat) (w : world) : world :=
  set_user {| doc := doc (user w); listeners := listeners (user w);
              resizeTimer := id;
              transitions := transitions (user w);
              uncaught := uncaught (user w) |} w.

Definition addEventListener (n : node) (ty : string) (h : handler) (w : world) : world :=
  set_user {| doc := doc (user w);
              listeners := listeners (user w) ++ [Listener n ty h];
              resizeTimer := resizeTimer (user w);
              transitions := transitions (user w);
              uncaught := uncaught (user w) |} w.

Definition record_transition (p : page) (w : world) : world :=
  set_user {| doc := p; listeners := listeners (user w);
              resizeTimer := resizeTimer (user w);
              transitions := transitions (user w) ++ [p];
              uncaught := uncaught (user w) |} w.

Definition report (w : world) : world :=
  set_user {| doc := doc (user w); listeners := listeners (user w);
              resizeTimer := resizeTimer (user w);
              transitions := transitions (user w);
              uncaught := S (uncaught (user w)) |} w.

(** A call of [toggleMenu] or [closeMenu] from a listener or a callback. *)
Definition call (f : page → completion page) (w : world) : completion world :=
  match f (page_of w) with
  | Returns p => Returns (record_transition p w)
  | Throws p => Throws (record_transition p w)
  end.

(** [navToggle.focus()]; the toggle is taken to be focusable. *)
Definition focus (n : node) (w : world) : world :=
  set_doc (set_activeElement n (page_of w)) w.

(** [nav.contains(e.target)], for the propagation path of the event: the
    target first, then its ancestors. *)
Definition contains_target (path : list node) : bool := bool_decide (Nav ∈ path).

(** The callback of the resize timer. *)
Definition resize_check (w : world) : completion world :=
  if (768 <=? innerWidth (page_of w))%Z && menu_open (page_of w)
  then call closeMenu w
  else Returns w.

Definition run_handler (h : handler) (path : list node) (key : string)
    (w : world) : completion world :=
  match h with
  | HToggleMenu => call toggleMenu w
  | HCloseMenu => call closeMenu w
  | HOutsideClick =>
    if nav (page_of w) then
      if negb (contains_target path) && menu_open (page_of w)
      then call closeMenu w
      else Returns w
    else Throws w
  | HEscape =>
    if bool_decide (key = "Escape") && menu_open (page_of w) then
      match call closeMenu w with
      | Returns w1 => Returns (focus NavToggle w1)
      | Throws w1 => Throws w1
      end
    else Returns w
  | HResize =>
    let w1 := clearTimeout (resizeTimer (user w)) w in
    let '(id, w2) := setTimeout ResizeCheck 250 w1 in
    Returns (set_resizeTimer (Some id) w2)
  end.

(** An exception that escapes a listener or a callback is reported and the
    event loop goes on. *)
Definition settle (c : completion world) : world :=
  match c with
  | Returns w => w
  | Throws w => report w
  end.

Definition run_callback (c : nav_callback) (w : world) : world :=
  match c with
  | ResizeCheck => settle (resize_check w)
  end.

Definition init (w : world) : completion world :=
  match nav__toggle (page_of w), nav__list (page_of w) with
  | Some _, Some _ =>
    let w1 := addEventListener NavToggle "click" HToggleMenu w in
    let w2 := foldl (λ w link, addEventListener link "click" HCloseMenu w)
                    w1 (nav__links (page_of w)) in
    let w3 := addEventListener Document "click" HOutsideClick w2 in
    let w4 := addEventListener Document "keydown" HEscape w3 in
    Returns (addEventListener Window "resize" HResize w4)
  | _, _ => Returns w
  end.

(** *** Events *)

Inductive event : Type :=
| Click (path : list node)
| KeyDown (key : string)
| Resize (width : Z)
| Elapse (ms : nat).

(** Listeners run along the propagation path, innermost node first; on one
    node, in the order they were bound. [path] lists the target and its
    ancestors inside the document; the document and the window end every
    path. *)
Definition listeners_on (n : node) (ty : string) (w : world) : list listener :=
  filter (λ l, target l = n ∧ on l = ty) (listeners (user w)).

Definition propagation (path : list node) : list node :=
  filter (λ n, n ≠ Document ∧ n ≠ Window) path ++ [Document; Window].

Definition dispatch (ty : string) (path : list node) (key : string)
    (w : world) : world :=
  foldl (λ w n,
           foldl (λ w l, settle (run_handler (fn l) path key w))
                 w (listeners_on n ty w))
        w (propagation path).

(** The listeners [init] binds on a page with these menu links. *)
Definition bound_listeners (links : list node) : list listener :=
  [Listener NavToggle "click" HToggleMenu]
  ++ map (λ link, Listener link "click" HCloseMenu) links
  ++ [Listener Document "click" HOutsideClick;
      Listener Document "keydown" HEscape;
      Listener Window "resize" HResize].

(** The script has run [init] on a page that has the toggle and the menu. *)
Definition initialised (w : world) : Prop :=
  elements_exist (page_of w) ∧
  listeners (user w) = bound_listeners (nav__links (page_of w)).

(** At most one timer is pending, the one [resizeTimer] names. *)
Definition timer_inv (w : world) : Prop :=
  pending w = [] ∨
  ∃ x, pending w = [x] ∧ resizeTimer (user w) = Some (timer_id x).

(** [Click path]: a click whose target and ancestors inside the document
    are [path]. [Resize width]: the viewport takes the new width, then the
    event is fired at the window. *)
Definition step (e : event) (w : world) : option world :=
  match e with
  | Click path => Some (dispatch "click" path "" w)
  | KeyDown key => Some (dispatch "keydown" [activeElement (page_of w)] key w)
  | Resize width =>
    Some (dispatch "resize" [] "" (set_doc (set_innerWidth width (page_of w)) w))
  | Elapse ms => elapse run_callback ms w
  end.

Fixpoint steps (es : list event) (w : world) : option world :=
  match es with
  | [] => Some w
  | e :: es' => w' ← step e w; steps es' w'
  end.

(** The script starts on a page that has no listener and no timer yet. *)
Definition fresh (p : page) : world :=
  {| now := 0; next_id := 1; pending := [];
     user := {| doc := p; listeners := []; resizeTimer := None;
                transitions := []; uncaught := 0 |} |}.

Definition boot (p : page) : world := state_of (init (fresh p)).

(** The named events of the navigation. *)
Definition toggle_click : event := Click [NavToggle; Nav; Body].
Definition link_click (i : nat) : event := Click [NavLink i; NavList; Nav; Body].
Definition outside_click : event := Click [Body].

(** The reflections agree. *)
Definition agree (p : page) : Prop :=
  (menu_open p = true ↔ toggle_open p = true) ∧
  (toggle_open p = true ↔ aria_expanded p = Some "true") ∧
  (aria_expanded p = Some "true" ↔ body_overflow p = "hidden").

(** The page as it is loaded: no reflection says "open". *)
Definition initially_closed (p : page) : Prop :=
  elements_exist p ∧ menu_open p = false ∧ toggle_open p = false ∧
  aria_expanded p ≠ Some "true" ∧ body_overflow p ≠ "hidden".

(** A page whose menu is open. *)
Definition sample_open_page : page :=
  {| nav := true;
     nav__toggle := Some (Element ["nav__toggle"; "nav__toggle--open"]
                                  {["aria-expanded" := "true"]});
     nav__list := Some (Element ["nav__list"; "nav__list--open"] ∅);
     nav__links := [NavLink 0; NavLink 1; NavLink 2];
     body_overflow := "hidden";
     activeElement := NavLink 1;
     innerWidth := 500 |}.

(** A burst of resize events: a first one, then more, each [gap]
    milliseconds after the one before. *)
Definition burst (first : Z) (rest : list (nat * Z)) : list event :=
  Resize first :: flat_map (λ gw, [Elapse gw.1; Resize gw.2]) rest.

Fixpoint last_width (first : Z) (rest : list (nat * Z)) : Z :=
  match rest with
  | [] => first
  | gw :: rest' => last_width gw.2 rest'
  end.

(** The world right after a resize to [width] has been handled. *)
Definition armed (width : Z) (w : world) : world :=
  {| now := now w; next_id := S (next_id w);
     pending := [Timer (next_id w) (now w + 250) ResizeCheck];
     user := {| doc := set_innerWidth width (page_of w);
                listeners := listeners (user w);
                resizeTimer := Some (next_id w);
                transitions := transitions (user w);
                uncaught := uncaught (user w) |} |}.

(** What stays when no listener is bound. *)
Definition inert (p : page) (w : world) : Prop :=
  listeners (user w) = [] ∧ pending w = [] ∧
  transitions (user w) = [] ∧ uncaught (user w) = 0 ∧
  page_of w = set_innerWidth (innerWidth (page_of w)) p.

(** The reflections agree now and agreed after every call of [toggleMenu]
    or [closeMenu] so far. *)
Definition coherent (w : world) : Prop :=
  elements_exist (page_of w) ∧ agree (page_of w) ∧
  Forall agree (transitions (user w)).

Definition ready (w : world) : Prop := initialised w ∧ timer_inv w.

Definition sample_page : page :=
  {| nav := true;
     nav__toggle := Some (Element ["nav__toggle"] {["aria-expanded" := "false"]});
     nav__list := Some (Element ["nav__list"] ∅);
     nav__links := [NavLink 0; NavLink 1; NavLink 2];
     body_overflow := "";
     activeElement := Body;
     innerWidth := 500 |}.


(** ** [js/utils.js] *)

Module Utils.

(** *** [debounce]

    [func] belongs to the caller; the model records each of its invocations
    with the time of the call and the arguments. [timeout] is the variable
    the returned wrapper closes over. *)

Section Debounce.

Context {A : Type}.

Inductive debounce_callback : Type :=
| Later (args : A).

Record debounce_state : Type := DebounceState {
  timeout : option nat;
  calls : list (nat * A)
}.

Definition func (args : A) (r : runtime debounce_state debounce_callback)
    : runtime debounce_state debounce_callback :=
  set_user {| timeout := timeout (user r);
              calls := calls (user r) ++ [(now r, args)] |} r.

Definition later (args : A) (r : runtime debounce_state debounce_callback)
    : runtime debounce_state debounce_callback :=
  func args (clearTimeout (timeout (user r)) r).

Definition executedFunction (wait : nat) (args : A)
    (r : runtime debounce_state debounce_callback)
    : runtime debounce_state debounce_callback :=
  let r1 := clearTimeout (timeout (user r)) r in
  let '(id, r2) := setTimeout (Later args) wait r1 in
  set_user {| timeout := Some id; calls := calls (user r2) |} r2.

(** [debounce(func, wait = 250)] answers the wrapper. *)
Definition debounce (wait : option nat) :=
  executedFunction (default 250 wait).

Definition run_later (c : debounce_callback)
    (r : runtime debounce_state debounce_callback) :=
  match c with
  | Later args => later args r
  end.

(** What the caller of the wrapper does over time. *)
Inductive action : Type :=
| Invoke (args : A)
| Sleep (ms : nat).

Definition act (wrapper : A → runtime debounce_state debounce_callback
                            → runtime debounce_state debounce_callback)
    (a : action) (r : runtime debounce_state debounce_callback)
    : option (runtime debounce_state debounce_callback) :=
  match a with
  | Invoke args => Some (wrapper args r)
  | Sleep ms => elapse run_later ms r
  end.

Fixpoint play (wrapper : A → runtime debounce_state debounce_callback
                           → runtime debounce_state debounce_callback)
    (l : list action) (r : runtime debounce_state debounce_callback)
    : option (runtime debounce_state debounce_callback) :=
  match l with
  | [] => Some r
  | a :: l' => r' ← act wrapper a r; play wrapper l' r'
  end.

(** The moment [debounce] returns: the wrapper's [timeout] is undefined,
    [func] has not been called, and the wrapper owns no timer. *)
Definition created (t0 id0 : nat) : runtime debounce_state debounce_callback :=
  {| now := t0; next_id := id0; pending := [];
     user := {| timeout := None; calls := [] |} |}.

(** A burst of calls of the wrapper: a first one, then more, each [gap]
    milliseconds after the one before. *)
Definition call_burst (first : A) (rest : list (nat * A)) : list action :=
  Invoke first :: flat_map (λ ga, [Sleep ga.1; Invoke ga.2]) rest.

Fixpoint last_args (first : A) (rest : list (nat * A)) : A :=
  match rest with
  | [] => first
  | ga :: rest' => last_args ga.2 rest'
  end.

Definition span (rest : list (nat * A)) : nat :=
  foldr (λ ga n, ga.1 + n) 0 rest.

(** The wrapper's timer is the only one pending, if any. *)
Definition timeout_inv (r : runtime debounce_state debounce_callback) : Prop :=
  pending r = [] ∨
  ∃ x, pending r = [x] ∧ timeout (user r) = Some (timer_id x).

(** The runtime right after the wrapper has been called with [args]. *)
Definition waiting (wait : nat) (args : A)
    (r : runtime debounce_state debounce_callback)
    : runtime debounce_state debounce_callback :=
  {| now := now r; next_id := S (next_id r);
     pending := [Timer (next_id r) (now r + wait) (Later args)];
     user := {| timeout := Some (next_id r); calls := calls (user r) |} |}.

End Debounce.

Arguments debounce_callback : clear implicits.
Arguments debounce_state : clear implicits.
Arguments action : clear implicits.

Abbreviation dworld A := (runtime (debounce_state A) (debounce_callback A)).

(** *** [getBreakpoint], on the value of [window.innerWidth] *)

Definition getBreakpoint (innerWidth : Z) : string :=
  if (innerWidth <? 768)%Z then "mobile"
  else if (innerWidth <? 1024)%Z then "tablet"
  else "desktop".

(** *** [copyToClipboard]

    The outcome of the copy is decided by the browser, so it is an input of
    the model: [navigator.clipboard] may be missing, the promise of
    [writeText] fulfils or rejects, and [document.execCommand('copy')]
    answers [true] when the selection was copied, answers [false] when the
    command is unsupported or disabled (nothing is copied), or throws. *)

Section Clipboard.

Context {E : Type}.

Inductive promise : Type :=
| Fulfilled
| Rejected (reason : E).

Inductive exec_result : Type :=
| ExecReturns (copied : bool)
| ExecThrows (err : E).

Record navigator : Type := Navigator {
  clipboard_writeText : option (string → promise);
  execCommand_copy : exec_result
}.

Record textarea : Type := TextArea {
  textarea_id : nat;
  value : string;
  style_position : string;
  style_opacity : string
}.

(** [body_children] holds the textareas this function appended to
    [document.body] (other children are of no concern here);
    [system_clipboard] is the text a paste would give. *)
Record clip_state : Type := ClipState {
  body_children : list textarea;
  next_node : nat;
  focused : option nat;
  selection : string;
  system_clipboard : string
}.

Definition appendChild (t : textarea) (s : clip_state) : clip_state :=
  {| body_children := body_children s ++ [t]; next_node := next_node s;
     focused := focused s; selection := selection s;
     system_clipboard := system_clipboard s |}.

Definition removeChild (t : textarea) (s : clip_state) : clip_state :=
  {| body_children :=
       filter (λ c, textarea_id c ≠ textarea_id t) (body_children s);
     next_node := next_node s;
     focused := if bool_decide (focused s = Some (textarea_id t))
                then None else focused s;
     selection := if bool_decide (focused s = Some (textarea_id t))
                  then "" else selection s;
     system_clipboard := system_clipboard s |}.

Definition createTextArea (text : string) (s : clip_state) : textarea * clip_state :=
  ({| textarea_id := next_node s; value := text;
      style_position := "fixed"; style_opacity := "0" |},
   {| body_children := body_children s; next_node := S (next_node s);
      focused := focused s; selection := selection s;
      system_clipboard := system_clipboard s |}).

Definition focus_and_select (t : textarea) (s : clip_state) : clip_state :=
  {| body_children := body_children s; next_node := next_node s;
     focused := Some (textarea_id t); selection := value t;
     system_clipboard := system_clipboard s |}.

Definition set_system_clipboard (text : string) (s : clip_state) : clip_state :=
  {| body_children := body_children s; next_node := next_node s;
     focused := focused s; selection := selection s;
     system_clipboard := text |}.

(** The promise answered by the async function, once settled, and the
    state it leaves. *)
Definition copyToClipboard (text : string) (nv : navigator) (s : clip_state)
    : promise * clip_state :=
  match clipboard_writeText nv with
  | Some writeText =>
    match writeText text with
    | Fulfilled => (Fulfilled, set_system_clipboard text s)
    | Rejected err => (Rejected err, s)
    end
  | None =>
    let '(textArea, s1) := createTextArea text s in
    let s2 := focus_and_select textArea (appendChild textArea s1) in
    match execCommand_copy nv with
    | ExecReturns copied =>
      let s3 := if copied then set_system_clipboard (selection s2) s2 else s2 in
      (Fulfilled, removeChild textArea s3)
    | ExecThrows err =>
      (Rejected err, removeChild textArea s2)
    end
  end.

(** The copy failed: the text did not reach the clipboard. *)
Definition copy_failed (text : string) (nv : navigator) : Prop :=
  match clipboard_writeText nv with
  | Some writeText => writeText text ≠ Fulfilled
  | None => execCommand_copy nv ≠ ExecReturns true
  end.

(** Node identifiers handed out so far are below [next_node]. *)
Definition fresh_ids (s : clip_state) : Prop :=
  Forall (λ c, textarea_id c < next_node s) (body_children s).

End Clipboard.

Arguments promise : clear implicits.
Arguments exec_result : clear implicits.
Arguments navigator : clear implicits.

(** *** More about [debounce] *)

Section DebouncePaced.

Context {A : Type}.

(** Calls of the wrapper, each followed by a pause. *)
Definition paced (l : list (A * nat)) : list (action A) :=
  flat_map (λ ag, [Invoke ag.1; Sleep ag.2]) l.

(** The invocations of [func] when every call of [l] gets through: each
    [wait] ms after its call. *)
Fixpoint honoured (wait t : nat) (l : list (A * nat)) : list (nat * A) :=
  match l with
  | [] => []
  | ag :: l' => (t + wait, ag.1) :: honoured wait (t + ag.2) l'
  end.

End DebouncePaced.

(** *** [throttle]

    [inThrottle] is the variable the returned wrapper closes over; it
    starts undefined, which the test [!inThrottle] treats as [false].
    [func] belongs to the caller: it is any function of the runtime, which
    covers what it may do through the wrapper or the timers, and it
    returns or throws. The model records each invocation when [func] is
    entered. As in the source, [inThrottle = true] and [setTimeout] come
    after [func.apply]: an exception of [func] leaves the wrapper before
    them. *)

Section Throttle.

Context {A : Type}.

Inductive throttle_callback : Type :=
| Release.

Record throttle_state : Type := ThrottleState {
  inThrottle : bool;
  invoked : list (nat * A)
}.

Variable func : A → runtime throttle_state throttle_callback
                  → completion (runtime throttle_state throttle_callback).

Definition throttled (limit : nat) (args : A)
    (r : runtime throttle_state throttle_callback)
    : completion (runtime throttle_state throttle_callback) :=
  if inThrottle (user r) then Returns r
  else
    let r0 := set_user {| inThrottle := inThrottle (user r);
                          invoked := invoked (user r) ++ [(now r, args)] |} r in
    match func args r0 with
    | Throws r1 => Throws r1
    | Returns r1 =>
      let r2 := set_user {| inThrottle := true;
                            invoked := invoked (user r1) |} r1 in
      Returns (setTimeout Release limit r2).2
    end.

(** [throttle(func, limit = 250)] answers the wrapper. *)
Definition throttle (limit : option nat) :=
  throttled (default 250 limit).

Definition run_release (c : throttle_callback)
    (r : runtime throttle_state throttle_callback)
    : runtime throttle_state throttle_callback :=
  match c with
  | Release => set_user {| inThrottle := false;
                           invoked := invoked (user r) |} r
  end.

(** A call of the wrapper by the page; an exception goes to the caller and
    the state stays as the exception left it. *)
Definition throttle_act
    (wrapper : A → runtime throttle_state throttle_callback
                 → completion (runtime throttle_state throttle_callback))
    (a : action A) (r : runtime throttle_state throttle_callback)
    : option (runtime throttle_state throttle_callback) :=
  match a with
  | Invoke args => Some (state_of (wrapper args r))
  | Sleep ms => elapse run_release ms r
  end.

Fixpoint throttle_play
    (wrapper : A → runtime throttle_state throttle_callback
                 → completion (runtime throttle_state throttle_callback))
    (l : list (action A)) (r : runtime throttle_state throttle_callback)
    : option (runtime throttle_state throttle_callback) :=
  match l with
  | [] => Some r
  | a :: l' => r' ← throttle_act wrapper a r; throttle_play wrapper l' r'
  end.

(** The moment [throttle] returns. *)
Definition throttle_created (t0 id0 : nat)
    : runtime throttle_state throttle_callback :=
  {| now := t0; next_id := id0; pending := [];
     user := {| inThrottle := false; invoked := [] |} |}.

(** Successive invocations are at least [limit] ms apart. *)
Fixpoint spaced (limit : nat) (l : list (nat * A)) : Prop :=
  match l with
  | [] => True
  | x :: l' =>
    match l' with
    | [] => True
    | y :: _ => x.1 + limit ≤ y.1 ∧ spaced limit l'
    end
  end.

(** While throttled, the one pending timer is the one that ends the
    window of the last invocation; otherwise that window is over. *)
Definition throttle_inv (limit : nat)
    (r : runtime throttle_state throttle_callback) : Prop :=
  spaced limit (invoked (user r)) ∧
  if inThrottle (user r) then
    ∃ id x, last (invoked (user r)) = Some x ∧
            pending r = [Timer id (x.1 + limit) Release] ∧
            now r ≤ x.1 + limit
  else
    pending r = [] ∧
    ∀ x, last (invoked (user r)) = Some x → x.1 + limit ≤ now r.

(** [func] returns and leaves the wrapper, the clock and the timers
    alone. *)
Definition returns_quietly : Prop := ∀ args r, func args r = Returns r.

End Throttle.

Arguments throttle_callback : clear implicits.
Arguments throttle_state : clear implicits.

Abbreviation tworld A := (runtime (throttle_state A) throttle_callback).

(** *** [formatPhoneLink]

    A JavaScript string is a sequence of UTF-16 code units. The class [\s]
    of a regular expression holds the white space and line terminator code
    units below; replacing every maximal run of them by the empty string
    deletes each of them. *)

Definition code_units (s : string) : list N :=
  map Ascii.N_of_ascii (String.list_ascii_of_string s).

Definition is_whitespace (c : N) : bool :=
  ((c =? 9) || (c =? 10) || (c =? 11) || (c =? 12) || (c =? 13) ||
   (c =? 32) || (c =? 160) || (c =? 5760) ||
   ((8192 <=? c) && (c <=? 8202)) ||
   (c =? 8232) || (c =? 8233) || (c =? 8239) || (c =? 8287) ||
   (c =? 12288) || (c =? 65279))%N.

Fixpoint replace_whitespace_runs (s : list N) : list N :=
  match s with
  | [] => []
  | c :: s' =>
    if is_whitespace c then replace_whitespace_runs s'
    else c :: replace_whitespace_runs s'
  end.

Definition formatPhoneLink (phone : list N) : list N :=
  code_units "tel:" ++ replace_whitespace_runs phone.

(** *** [trapFocus]

    [El] is the type of elements. [focusableElements] is what
    [element.querySelectorAll] answers; [firstFocusable] and
    [lastFocusable] are [undefined] ([None]) when it is empty.
    [document.activeElement] is an element or [null] ([None]), and [===]
    between [null] and [undefined] is false.

    The selector looks at tag names and attributes only, so it also
    matches elements that cannot take the focus (an [input] of type
    [hidden], an element that is not rendered): on those [focus()] does
    nothing. [can_focus] tells which elements take it. *)

Section TrapFocus.

Context {El : Type} `{EqDecision El}.

Variable can_focus : El → bool.
Variable focusableElements : list El.

Definition firstFocusable : option El := head focusableElements.
Definition lastFocusable : option El := last focusableElements.

Record key_event : Type := KeyEvent {
  ev_key : string;
  ev_shiftKey : bool
}.

Definition strict_equal (active : option El) (e : option El) : bool :=
  match active, e with
  | Some a, Some b => bool_decide (a = b)
  | _, _ => false
  end.

(** [target.focus()]: the element that has the focus afterwards. The
    script calls it only on a [target] that is an element: in the listener
    one end of the list has just been found equal to an element, so the
    list is not empty, and in [trapFocus] behind [if (firstFocusable)]. *)
Definition focus (target : option El) (active : option El) : option El :=
  match target with
  | Some t => if can_focus t then Some t else active
  | None => active
  end.

(** The keydown listener: the element that has the focus afterwards, and
    whether [preventDefault] was called. *)
Definition trap_listener (e : key_event) (active : option El)
    : option El * bool :=
  if bool_decide (ev_key e ≠ "Tab") then (active, false)
  else if ev_shiftKey e then
    if strict_equal active firstFocusable
    then (focus lastFocusable active, true)
    else (active, false)
  else
    if strict_equal active lastFocusable
    then (focus firstFocusable active, true)
    else (active, false).

(** [trapFocus(element)], as for the focus: [focus()] is called on the
    first match, if there is one. *)
Definition trapFocus (active : option El) : option El :=
  match firstFocusable with
  | Some f => focus (Some f) active
  | None => active
  end.

(** A key press while the trap is set. [inside] tells whether a node lies
    in the trapped element, where the listener hears the event;
    [default_action] is what the browser does with the key when the
    default is not prevented. *)
Definition press (inside : El → bool)
    (default_action : key_event → option El → option El)
    (active : option El) (e : key_event) : option El :=
  match active with
  | Some a =>
    if inside a then
      let '(active', prevented) := trap_listener e active in
      if prevented then active' else default_action e active'
    else default_action e active
  | None => default_action e active
  end.

(** The Tab key, with or without Shift. *)
Definition tab (shift : bool) : key_event := KeyEvent "Tab" shift.

End TrapFocus.

Arguments firstFocusable {El} focusableElements.
Arguments lastFocusable {El} focusableElements.
Arguments key_event : clear implicits.
Arguments strict_equal {El _} active e.
Arguments tab : clear implicits.

(** *** [setActiveNavLink]

    A ['.nav__link'] anchor, as far as the function looks at it.
    [link_pathname] is [new URL(link.href).pathname], [None] when the
    [URL] constructor throws (an anchor without [href] has the empty
    string for [link.href]). *)

Record anchor : Type := Anchor {
  link_pathname : option string;
  link_classList : list string;
  link_attributes : gmap string string
}.

Definition mark_active (a : anchor) : anchor :=
  {| link_pathname := link_pathname a;
     link_classList := ClassList.add "nav__link--active" (link_classList a);
     link_attributes := <["aria-current" := "page"]> (link_attributes a) |}.

Definition is_current (currentPath linkPath : string) : bool :=
  bool_decide (linkPath = currentPath)
  || (bool_decide (currentPath = "/") && bool_decide (linkPath = "/index.html")).

(** [navLinks.forEach]: an exception in the callback ends the loop, and
    the anchors before it keep what was done to them. *)
Fixpoint setActiveNavLink (currentPath : string) (navLinks : list anchor)
    : completion (list anchor) :=
  match navLinks with
  | [] => Returns []
  | link :: rest =>
    match link_pathname link with
    | None => Throws (link :: rest)
    | Some linkPath =>
      let link' := if is_current currentPath linkPath
                   then mark_active link else link in
      match setActiveNavLink currentPath rest with
      | Returns rest' => Returns (link' :: rest')
      | Throws rest' => Throws (link' :: rest')
      end
    end
  end.

Definition is_active (a : anchor) : bool :=
  ClassList.contains "nav__link--active" (link_classList a).

Definition aria_current (a : anchor) : option string :=
  link_attributes a !! "aria-current".

(** The link is the current page: its path is the current path, or the
    current path is ["/"] and the link goes to ["/index.html"]. *)
Definition current_of (currentPath : string) (a : anchor) : Prop :=
  link_pathname a = Some currentPath ∨
  (currentPath = "/" ∧ link_pathname a = Some "/index.html").

(** How [setActiveNavLink] leaves an anchor whose URL is valid. *)
Definition marked_from (currentPath : string) (a a' : anchor) : Prop :=
  link_pathname a' = link_pathname a ∧
  (is_active a' = true ↔ is_active a = true ∨ current_of currentPath a) ∧
  (current_of currentPath a → aria_current a' = Some "page") ∧
  (¬ current_of currentPath a → a' = a).

(** *** [toast]

    [toast_body] holds the toasts that are children of [document.body],
    [toast_styles] counts the elements with id ['toast-styles'] in the
    document. The callbacks are the two nested arrow functions: the outer
    one starts the exit animation and sets the inner one, which removes
    the toast.

    Of a toast element the model keeps what the script gives it:
    [toast_style] is its inline style as declarations, property and value
    as the script wrote them (the text assigned to [style.cssText] has six
    of them, and [style.animation = v] replaces the value of the one for
    [animation]); [assigned_innerHTML] is the markup assigned to
    [innerHTML], from which the browser builds the children. How the
    browser writes either of them when they are read back is not part of
    the model. *)

Section Toast.

Record toast_element : Type := ToastElement {
  toast_id : nat;
  className : string;
  toast_style : list (string * string);
  role : string;
  assigned_innerHTML : string
}.

Inductive toast_callback : Type :=
| BeginExit (id : nat)
| RemoveToast (id : nat).

Record toast_state : Type := ToastState {
  toast_body : list toast_element;
  toast_styles : nat;
  next_element : nat
}.

Definition double_quote : string := String (Ascii.ascii_of_nat 34) EmptyString.

(** Setting one property of an inline style: the declaration of that
    property gets the value, in its place, or is added at the end. *)
Fixpoint set_property (name v : string) (decls : list (string * string))
    : list (string * string) :=
  match decls with
  | [] => [(name, v)]
  | d :: rest =>
    if String.eqb d.1 name then (name, v) :: rest
    else d :: set_property name v rest
  end.

Definition new_toast (id : nat) (message type : string) : toast_element :=
  {| toast_id := id;
     className := "alert alert--" +:+ type;
     toast_style := [("position", "fixed"); ("top", "20px"); ("right", "20px");
                     ("z-index", "9999"); ("min-width", "300px");
                     ("animation", "slideInRight 0.3s ease")];
     role := "alert";
     assigned_innerHTML := "<div class=" +:+ double_quote +:+ "alert__body"
                           +:+ double_quote +:+ ">" +:+ message +:+ "</div>" |}.

(** [toast.style.animation = v]. *)
Definition set_animation (v : string) (el : toast_element) : toast_element :=
  {| toast_id := toast_id el; className := className el;
     toast_style := set_property "animation" v (toast_style el);
     role := role el; assigned_innerHTML := assigned_innerHTML el |}.

(** [toast(message, type = 'info', duration = 3000)]. *)
Definition toast (message : string) (type : option string)
    (duration : option nat) (r : runtime toast_state toast_callback)
    : runtime toast_state toast_callback :=
  let el := new_toast (next_element (user r)) message (default "info" type) in
  let styles := if toast_styles (user r) =? 0 then 1
                else toast_styles (user r) in
  let r1 := set_user {| toast_body := toast_body (user r) ++ [el];
                        toast_styles := styles;
                        next_element := S (next_element (user r)) |} r in
  (setTimeout (BeginExit (toast_id el)) (default 3000 duration) r1).2.

Definition run_toast (c : toast_callback)
    (r : runtime toast_state toast_callback)
    : runtime toast_state toast_callback :=
  match c with
  | BeginExit id =>
    let r1 := set_user
                {| toast_body :=
                     map (λ el, if bool_decide (toast_id el = id)
                                then set_animation "slideOutRight 0.3s ease" el
                                else el)
                         (toast_body (user r));
                   toast_styles := toast_styles (user r);
                   next_element := next_element (user r) |} r in
    (setTimeout (RemoveToast id) 300 r1).2
  | RemoveToast id =>
    set_user {| toast_body := filter (λ el, toast_id el ≠ id)
                                     (toast_body (user r));
                toast_styles := toast_styles (user r);
                next_element := next_element (user r) |} r
  end.

(** A timer that starts an exit sets one more timer, so two units of fuel
    per pending timer are enough (see [toast_elapse_total]). *)
Definition toast_elapse (ms : nat) (r : runtime toast_state toast_callback)
    : option (runtime toast_state toast_callback) :=
  advance run_toast (2 * length (pending r)) (now r + ms) r.

Inductive toast_action : Type :=
| ShowToast (message : string) (type : option string) (duration : option nat)
| Wait (ms : nat).

Definition toast_act (a : toast_action)
    (r : runtime toast_state toast_callback)
    : option (runtime toast_state toast_callback) :=
  match a with
  | ShowToast message type duration => Some (toast message type duration r)
  | Wait ms => toast_elapse ms r
  end.

Fixpoint toast_play (l : list toast_action)
    (r : runtime toast_state toast_callback)
    : option (runtime toast_state toast_callback) :=
  match l with
  | [] => Some r
  | a :: l' => r' ← toast_act a r; toast_play l' r'
  end.

(** A page on which [toast] has not been called yet. *)
Definition toast_fresh : runtime toast_state toast_callback :=
  {| now := 0; next_id := 1; pending := [];
     user := {| toast_body := []; toast_styles := 0; next_element := 1 |} |}.

(** What a pending timer still has to do: an exit to start and a removal,
    or a removal. *)
Definition toast_weight (c : toast_callback) : nat :=
  match c with
  | BeginExit _ => 2
  | RemoveToast _ => 1
  end.

Definition toast_load (l : list (timer toast_callback)) : nat :=
  foldr (λ x n, toast_weight (callback x) + n) 0 l.

(** The timer works on the toast. *)
Definition works_on (x : timer toast_callback) (el : toast_element) : Prop :=
  callback x = BeginExit (toast_id el) ∨ callback x = RemoveToast (toast_id el).

(** Timer identifiers are distinct and below [next_id]; every toast in the
    body has a pending timer that works on it; the style element is there
    once as soon as a toast was shown. *)
Definition toast_inv (r : runtime toast_state toast_callback) : Prop :=
  (∀ x y, x ∈ pending r → y ∈ pending r → timer_id x = timer_id y → x = y) ∧
  Forall (λ x, timer_id x < next_id r) (pending r) ∧
  Forall (λ el, ∃ x, x ∈ pending r ∧ works_on x el) (toast_body (user r)) ∧
  toast_styles (user r) ≤ 1 ∧
  (1 < next_element (user r) → toast_styles (user r) = 1).

(** Element identifiers in the body are below [next_element]. *)
Definition fresh_toasts (r : runtime toast_state toast_callback) : Prop :=
  Forall (λ el, toast_id el < next_element (user r)) (toast_body (user r)).

End Toast.

(** *** [lazyLoadImages]

    An [img] element, as far as the function looks at it: its [loading]
    and [data-src] attributes ([None] when absent), its [src] and its
    classes. Images are known by their place in the document. The
    intersection observer of the fallback is modelled by the list of the
    places it observes; the browser reports entries for observed targets
    only. *)

Section LazyLoad.

Record image : Type := Image {
  img_loading : option string;
  img_data_src : option string;
  img_src : option string;
  img_classList : list string
}.

(** [img.src = img.dataset.src]; an absent [data-src] reads [undefined],
    which the assignment turns into a string. *)
Definition load_image (img : image) : image :=
  {| img_loading := img_loading img; img_data_src := img_data_src img;
     img_src := Some (default "undefined" (img_data_src img));
     img_classList := img_classList img |}.

Definition remove_lazy_class (img : image) : image :=
  {| img_loading := img_loading img; img_data_src := img_data_src img;
     img_src := img_src img;
     img_classList := ClassList.remove "lazy" (img_classList img) |}.

(** [if (img.dataset.src)]: present and not empty. *)
Definition has_data_src (img : image) : bool :=
  match img_data_src img with
  | Some s => bool_decide (s ≠ "")
  | None => false
  end.

Record lazy_state : Type := LazyState {
  images : list image;
  observed : list nat
}.

(** The places of the images that match [P], in document order. *)
Definition places (P : image → bool) (imgs : list image) : list nat :=
  (filter (λ ip, P ip.2 = true) (imap (λ i img, (i, img)) imgs)).*1.

Definition lazyLoadImages (native : bool) (imgs : list image) : lazy_state :=
  if native then
    {| images :=
         map (λ img,
                if bool_decide (img_loading img = Some "lazy")
                then (if has_data_src img then load_image img else img)
                else img)
             imgs;
       observed := [] |}
  else
    {| images := imgs;
       observed := places (λ img, bool_decide (is_Some (img_data_src img))) imgs |}.

(** The observer callback, for one entry: the place of the target and
    [isIntersecting]. *)
Definition on_entry (st : lazy_state) (entry : nat * bool) : lazy_state :=
  if entry.2 then
    {| images := alter (λ img, remove_lazy_class (load_image img)) entry.1
                       (images st);
       observed := filter (λ i, i ≠ entry.1) (observed st) |}
  else st.

(** The browser hands the callback the entries of the targets observed at
    that moment. *)
Definition deliver (st : lazy_state) (entries : list (nat * bool)) : lazy_state :=
  foldl on_entry st (filter (λ e, e.1 ∈ observed st) entries).

(** An image after the fallback has been at work: as it was, or with its
    [data-src] as [src] and without the class ['lazy'], the other classes
    and attributes as they were. *)
Definition loaded_or_same (img img' : image) : Prop :=
  img' = img ∨
  ∃ s, img_data_src img = Some s ∧
       img_src img' = Some s ∧
       ("lazy" ∉ img_classList img') ∧
       img_classList img' = filter (λ c, c ≠ "lazy") (img_classList img) ∧
       img_loading img' = img_loading img ∧
       img_data_src img' = img_data_src img.

End LazyLoad.

End Utils.

(** ** More about the navigation script *)

(** An attribute of an element that may be missing. *)
Definition attribute_of (name : string) (e : option element) : option string :=
  e ≫= getAttribute name.

(** Nodes on which [init] binds nothing: neither the toggle, nor a menu
    link, nor the document or the window. *)
Definition plain (n : node) : bool :=
  match n with
  | Body | Nav | NavList | Other _ => true
  | Window | Document | NavToggle | NavLink _ => false
  end.

(** The menu links are link nodes, each listed once. *)
Definition link_nodes (links : list node) : Prop :=
  NoDup links ∧ ∀ n, n ∈ links → ∃ i, n = NavLink i.

(** Facts of the page that no listener changes. *)
Definition same_layout (p : page) (w : world) : Prop :=
  elements_exist (page_of w) ∧ nav (page_of w) = nav p ∧
  nav__links (page_of w) = nav__links p.

(** A page with the toggle and an open menu but no ['.nav'] element. *)
Definition sample_page_without_nav : page :=
  {| nav := false;
     nav__toggle := Some (Element ["nav__toggle"; "nav__toggle--open"]
                                  {["aria-expanded" := "true"]});
     nav__list := Some (Element ["nav__list"; "nav__list--open"] ∅);
     nav__links := [NavLink 0];
     body_overflow := "hidden";
     activeElement := Body;
     innerWidth := 500 |}.

(** * Properties *)

(** ** Class lists *)

Lemma contains_remove tok cl :
  ClassList.contains tok (ClassList.remove tok cl) = false.
Proof.
  unfold ClassList.contains, ClassList.remove. apply bool_decide_eq_false.
  rewrite list_elem_of_filter. tauto.
Qed.

Lemma contains_snoc tok cl : ClassList.contains tok (cl ++ [tok]) = true.
Proof.
  unfold ClassList.contains. apply bool_decide_eq_true. set_solver.
Qed.

Lemma remove_absent tok cl :
  ClassList.contains tok cl = false → ClassList.remove tok cl = cl.
Proof.
  unfold ClassList.contains, ClassList.remove. intros H%bool_decide_eq_false.
  induction cl as [|c cl IH]; [done|].
  rewrite filter_cons. destruct (decide (c ≠ tok)) as [_|Heq].
  - f_equal. apply IH. set_solver.
  - exfalso. apply H. apply dec_stable in Heq. subst. set_solver.
Qed.

Lemma remove_remove tok cl :
  ClassList.remove tok (ClassList.remove tok cl) = ClassList.remove tok cl.
Proof. apply remove_absent, contains_remove. Qed.

(** What [toggle] answers and what it leaves, in terms of membership. *)
Lemma toggle_spec tok cl :
  (ClassList.toggle tok cl).1 = negb (ClassList.contains tok cl) ∧
  ClassList.contains tok (ClassList.toggle tok cl).2
  = negb (ClassList.contains tok cl).
Proof.
  unfold ClassList.toggle. destruct (ClassList.contains tok cl) eqn:E; simpl.
  - split; [done|]. apply contains_remove.
  - split; [done|]. apply contains_snoc.
Qed.

(** ** [toggleMenu] and [closeMenu] on a page that has both elements *)

Lemma toggleMenu_spec p :
  elements_exist p →
  ∃ p', toggleMenu p = Returns p' ∧
        menu_open p' = negb (menu_open p) ∧
        toggle_open p' = negb (toggle_open p) ∧
        aria_expanded p' = Some (ToString_bool (negb (menu_open p))) ∧
        body_overflow p' = (if negb (menu_open p) then "hidden" else "") ∧
        same_frame p p'.
Proof.
  intros [[tg Htg] [mn Hmn]]. unfold toggleMenu. rewrite Hmn, Htg.
  destruct (toggle_spec "nav__list--open" (classList mn)) as [Ha Hb].
  destruct (toggle_spec "nav__toggle--open" (classList tg)) as [_ Hc].
  destruct (ClassList.toggle "nav__list--open" (classList mn)) as [isOpen cl].
  simpl in Ha, Hb. eexists. split; [reflexivity|].
  unfold menu_open, toggle_open, aria_expanded, getAttribute, same_frame,
    elements_exist. simpl. rewrite Hmn, Htg. simpl.
  rewrite lookup_insert_eq, <- Ha.
  repeat split; eauto.
Qed.

Lemma closeMenu_spec p :
  elements_exist p →
  ∃ p', closeMenu p = Returns p' ∧ closed p' ∧ same_frame p p'.
Proof.
  intros [[tg Htg] [mn Hmn]]. unfold closeMenu. rewrite Hmn, Htg.
  eexists. split; [reflexivity|].
  unfold closed, menu_open, toggle_open, aria_expanded, getAttribute,
    same_frame, elements_exist. simpl.
  rewrite !contains_remove, lookup_insert_eq.
  repeat split; eauto.
Qed.

Lemma closeMenu_twice p p' :
  closeMenu p = Returns p' → closeMenu p' = Returns p'.
Proof.
  unfold closeMenu.
  destruct (nav__list p) as [mn|] eqn:Hmn; [|discriminate].
  destruct (nav__toggle p) as [tg|] eqn:Htg; [|discriminate].
  intros [= <-]. simpl.
  unfold set_body_overflow, set_nav__toggle, set_nav__list, setAttribute,
    with_classList. simpl.
  by rewrite !remove_remove, insert_insert_eq.
Qed.

(** ** C2 *)

(** C2, as stated, fails: on a page whose menu lacks ['nav__list--open']
    while its toggle carries ['nav__toggle--open'], [toggleMenu] opens the
    menu but takes the class off the toggle instead of adding it. *)
Lemma stale_toggle_class_removed :
  let p := {| nav := true;
              nav__toggle := Some (Element ["nav__toggle"; "nav__toggle--open"] ∅);
              nav__list := Some (Element ["nav__list"] ∅);
              nav__links := []; body_overflow := "";
              activeElement := Body; innerWidth := 500 |} in
  menu_open p = false ∧
  ∃ p', toggleMenu p = Returns p' ∧
        menu_open p' = true ∧ toggle_open p' = false.
Proof.
  cbv zeta. split; [by vm_compute|].
  eexists. split; [reflexivity|]. by vm_compute.
Qed.

(** ** C3 *)

(** C3, as stated, fails: with both classes absent, [aria-expanded] at
    ["false"] and a body overflow of ["auto"], two calls of [toggleMenu]
    leave the body overflow at [""]. *)
Lemma overflow_lost_after_two_toggles :
  let p := {| nav := true;
              nav__toggle := Some (Element ["nav__toggle"] {["aria-expanded" := "false"]});
              nav__list := Some (Element ["nav__list"] ∅);
              nav__links := []; body_overflow := "auto";
              activeElement := Body; innerWidth := 500 |} in
  ∃ p1 p2, toggleMenu p = Returns p1 ∧ toggleMenu p1 = Returns p2 ∧
           body_overflow p = "auto" ∧ body_overflow p2 = "".
Proof.
  cbv zeta. do 2 eexists. split; [reflexivity|]. split; [reflexivity|].
  by vm_compute.
Qed.

(** C3, amended: for every starting state of the two elements, two calls
    of [toggleMenu] return the presence of ['nav__list--open'] on the menu
    and of ['nav__toggle--open'] on the toggle to what they were, and leave
    [aria-expanded] at ["true"] or ["false"] and the body overflow at
    ["hidden"] or [""] according to whether the menu had its class at the
    start; so these two return to their original values exactly when they
    reflected the menu class at the start. *)
Theorem toggleMenu_twice p :
  elements_exist p →
  ∃ p1 p2,
    toggleMenu p = Returns p1 ∧ toggleMenu p1 = Returns p2 ∧
    menu_open p2 = menu_open p ∧
    toggle_open p2 = toggle_open p ∧
    aria_expanded p2 = Some (ToString_bool (menu_open p)) ∧
    body_overflow p2 = (if menu_open p then "hidden" else "") ∧
    ((aria_expanded p2 = aria_expanded p ∧ body_overflow p2 = body_overflow p)
     ↔ (aria_expanded p = Some (ToString_bool (menu_open p)) ∧
        body_overflow p = (if menu_open p then "hidden" else ""))).
Proof.
  intros He.
  destruct (toggleMenu_spec p He) as (p1 & Hr1 & Hm1 & Ht1 & _ & _ & Hf1).
  destruct Hf1 as (_ & _ & _ & _ & He1).
  destruct (toggleMenu_spec p1 He1) as (p2 & Hr2 & Hm2 & Ht2 & Ha2 & Ho2 & _).
  rewrite Hm1, negb_involutive in Hm2, Ha2, Ho2.
  rewrite Ht1, negb_involutive in Ht2.
  exists p1, p2. do 6 (split; [done|]).
  rewrite Ha2, Ho2. split; intros [Ha Ho]; split; congruence.
Qed.

Lemma toggleMenu_twice_witness :
  ∃ p1 p2,
    toggleMenu sample_page = Returns p1 ∧ toggleMenu p1 = Returns p2 ∧
    menu_open p2 = menu_open sample_page ∧
    toggle_open p2 = toggle_open sample_page ∧
    aria_expanded p2 = aria_expanded sample_page ∧
    body_overflow p2 = body_overflow sample_page.
Proof.
  destruct (toggleMenu_twice sample_page) as (p1 & p2 & H1 & H2 & Hm & Ht & _ & _ & Hiff).
  - split; eexists; reflexivity.
  - exists p1, p2. destruct Hiff as [_ Hback].
    destruct Hback as [Ha Ho]; [split; reflexivity|].
    by repeat split.
Defined.

(** ** C10 *)

(** C10: on a page that has both elements, [closeMenu] returns, from any
    state, the closed state (both classes absent, [aria-expanded] at
    ["false"], body overflow [""]), and a second call changes nothing. *)
Theorem closeMenu_idempotent p :
  elements_exist p →
  ∃ p', closeMenu p = Returns p' ∧ closed p' ∧ closeMenu p' = Returns p'.
Proof.
  intros He. destruct (closeMenu_spec p He) as (p' & Hr & Hc & _).
  exists p'. split; [done|]. split; [done|]. by eapply closeMenu_twice.
Qed.

Lemma closeMenu_idempotent_witness :
  let p := {| nav := true;
              nav__toggle := Some (Element ["nav__toggle"] {["aria-expanded" := "true"]});
              nav__list := Some (Element ["nav__list--open"; "nav__list"] ∅);
              nav__links := []; body_overflow := "scroll";
              activeElement := Body; innerWidth := 500 |} in
  ∃ p', closeMenu p = Returns p' ∧ closed p' ∧ closeMenu p' = Returns p'.
Proof.
  cbv zeta. apply closeMenu_idempotent. split; eexists; reflexivity.
Defined.

(** ** C9 *)

(** C9: [getBreakpoint] answers ["mobile"] exactly below 768, ["tablet"]
    exactly from 768 up to but not including 1024, ["desktop"] exactly from
    1024 on; so ["mobile"] at 500, ["tablet"] at 800, ["desktop"] at 1200. *)
Theorem getBreakpoint_spec :
  (∀ w : Z,
     (Utils.getBreakpoint w = "mobile" ↔ (w < 768)%Z) ∧
     (Utils.getBreakpoint w = "tablet" ↔ (768 ≤ w < 1024)%Z) ∧
     (Utils.getBreakpoint w = "desktop" ↔ (1024 ≤ w)%Z)) ∧
  Utils.getBreakpoint 500 = "mobile" ∧
  Utils.getBreakpoint 800 = "tablet" ∧
  Utils.getBreakpoint 1200 = "desktop".
Proof.
  split; [|by repeat split].
  intros w. unfold Utils.getBreakpoint.
  destruct (Z.ltb_spec w 768) as [H1|H1];
    destruct (Z.ltb_spec w 1024) as [H2|H2];
    repeat split; intros; try done; try lia.
Qed.

(** ** The event loop *)

Section EventLoopFacts.

Context {U cb : Type}.
Variable run : cb → runtime U cb → runtime U cb.

Lemma earliest_elem (l : list (timer cb)) x : earliest l = Some x → x ∈ l.
Proof.
  revert x. induction l as [|y l IH]; intros x; simpl; [done|].
  destruct (earliest l) as [z|].
  - destruct (due z <? due y); intros [= <-]; [|set_solver].
    apply elem_of_cons. right. by apply IH.
  - intros [= <-]. set_solver.
Qed.

Lemma earliest_single (x : timer cb) : earliest [x] = Some x.
Proof. reflexivity. Qed.

Lemma filter_drops (x : timer cb) l :
  x ∈ l →
  length (filter (λ y, timer_id y ≠ timer_id x) l) < length l.
Proof. intros Hin. eapply length_filter_lt; [exact Hin|]. by intros H. Qed.

(** No callback registers a timer. *)
Hypothesis run_registers_none :
  ∀ c r, length (pending (run c r)) ≤ length (pending r).

Lemma fire_shrinks x (r : runtime U cb) :
  x ∈ pending r → length (pending (fire run x r)) < length (pending r).
Proof.
  intros Hin. unfold fire.
  eapply Nat.le_lt_trans; [apply run_registers_none|].
  simpl. by apply filter_drops.
Qed.

Lemma advance_total fuel T (r : runtime U cb) :
  length (pending r) ≤ fuel → is_Some (advance run fuel T r).
Proof.
  revert r. induction fuel as [|fuel IH]; intros r Hlen; simpl.
  - unfold next_due. destruct (pending r) as [|y l] eqn:E; [by eexists|].
    simpl in Hlen. lia.
  - destruct (next_due T r) as [x|] eqn:E; [|by eexists].
    apply IH. unfold next_due in E.
    destruct (earliest (pending r)) as [y|] eqn:Ey; [|done].
    destruct (due y <=? T); [|done]. injection E as <-.
    apply earliest_elem in Ey. pose proof (fire_shrinks y r Ey). lia.
Qed.

(** Letting time pass always returns. *)
Lemma elapse_total ms (r : runtime U cb) : is_Some (elapse run ms r).
Proof. by apply advance_total. Qed.

(** A property kept by the clock and by every timer that runs is kept by
    letting time pass. *)
Lemma advance_preserves (P : runtime U cb → Prop) :
  (∀ t r, P r → P (set_now t r)) →
  (∀ x r, x ∈ pending r → P r → P (fire run x r)) →
  ∀ fuel T r r', advance run fuel T r = Some r' → P r → P r'.
Proof.
  intros Hnow Hfire. induction fuel as [|fuel IH]; intros T r r'; simpl.
  - destruct (next_due T r); [done|]. intros [= <-]. apply Hnow.
  - destruct (next_due T r) as [x|] eqn:E.
    + intros Hadv HP. eapply IH; [exact Hadv|]. apply Hfire; [|done].
      unfold next_due in E. destruct (earliest (pending r)) as [y|] eqn:Ey; [|done].
      destruct (due y <=? T); [|done]. injection E as <-. by apply earliest_elem.
    + intros [= <-]. apply Hnow.
Qed.

(** With nothing pending, only the clock moves. *)
Lemma elapse_idle ms (r : runtime U cb) :
  pending r = [] → elapse run ms r = Some (set_now (now r + ms) r).
Proof.
  intros Hp. unfold elapse. rewrite Hp. simpl. unfold next_due. rewrite Hp.
  simpl. by rewrite Nat.max_r by lia.
Qed.

(** One pending timer, not yet due at the end of the wait: it stays. *)
Lemma elapse_early ms x (r : runtime U cb) :
  pending r = [x] → now r + ms < due x →
  elapse run ms r = Some (set_now (now r + ms) r).
Proof.
  intros Hp Hlt. unfold elapse. rewrite Hp. simpl. unfold next_due. rewrite Hp.
  simpl. destruct (Nat.leb_spec (due x) (now r + ms)); [lia|].
  by rewrite Nat.max_r by lia.
Qed.

(** No callback touches the clock. *)
Hypothesis run_keeps_clock : ∀ c r, now (run c r) = now r.

(** One pending timer, due within the wait: it runs at its due time, and
    then the clock reaches the end of the wait, provided the callback
    leaves nothing pending. *)
Lemma elapse_due ms x (r : runtime U cb) :
  pending r = [x] → now r ≤ due x → due x ≤ now r + ms →
  pending (run (callback x) (set_now (due x) (set_pending [] r))) = [] →
  elapse run ms r
  = Some (set_now (now r + ms)
            (run (callback x) (set_now (due x) (set_pending [] r)))).
Proof.
  intros Hp Hle Hdue Hnone. unfold elapse. rewrite Hp. simpl.
  unfold next_due at 1. rewrite Hp. simpl.
  destruct (Nat.leb_spec (due x) (now r + ms)); [|lia].
  unfold fire. rewrite Hp. rewrite filter_cons. simpl.
  destruct (decide (timer_id x ≠ timer_id x)); [done|].
  rewrite filter_nil. replace (Nat.max (now r) (due x)) with (due x) by lia.
  unfold next_due. rewrite Hnone. simpl.
  rewrite run_keeps_clock. simpl. by rewrite Nat.max_r by lia.
Qed.

End EventLoopFacts.

(** ** Listeners and callbacks of the navigation script *)

Lemma closed_agree p : closed p → agree p.
Proof.
  intros (Hm & Ht & Ha & Ho). unfold agree. rewrite Hm, Ht, Ha, Ho.
  repeat split; intros; done.
Qed.

Lemma agree_classes p : agree p → toggle_open p = menu_open p.
Proof.
  intros ([H1 H2] & _).
  destruct (menu_open p), (toggle_open p); auto.
  symmetry; auto.
Qed.

Lemma toggleMenu_agree p p' :
  elements_exist p → agree p → toggleMenu p = Returns p' →
  agree p' ∧ elements_exist p'.
Proof.
  intros He Hag Hr. apply agree_classes in Hag.
  destruct (toggleMenu_spec p He) as (q & Hq & Hm & Ht & Ha & Ho & Hf).
  rewrite Hr in Hq. injection Hq as <-.
  split; [|apply Hf].
  unfold agree. rewrite Hm, Ht, Ha, Ho, Hag.
  by destruct (menu_open p).
Qed.

Lemma coherent_ext w w' :
  page_of w' = page_of w → transitions (user w') = transitions (user w) →
  coherent w → coherent w'.
Proof. unfold coherent. intros -> ->. done. Qed.

Lemma coherent_record w p' :
  coherent w → elements_exist p' → agree p' →
  coherent (record_transition p' w).
Proof.
  intros (_ & _ & Hall) He Ha.
  split; [exact He|]. split; [exact Ha|]. simpl.
  apply Forall_app. split; [done|]. by apply Forall_singleton.
Qed.

Lemma ready_ext w w' :
  elements_exist (page_of w') →
  nav__links (page_of w') = nav__links (page_of w) →
  listeners (user w') = listeners (user w) →
  pending w' = pending w → resizeTimer (user w') = resizeTimer (user w) →
  ready w → ready w'.
Proof.
  intros He Hl Hls Hp Hr [[_ Hb] Ht]. unfold ready, initialised, timer_inv.
  rewrite Hl, Hls, Hp, Hr. done.
Qed.

Lemma ready_record w p' :
  ready w → same_frame (page_of w) p' → ready (record_transition p' w).
Proof.
  intros Hr (_ & Hl & _ & _ & He).
  eapply ready_ext; [exact He|exact Hl|done..].
Qed.

(** A call from a listener, on a page that has both elements. *)
Lemma call_toggleMenu w :
  elements_exist (page_of w) →
  ∃ p', toggleMenu (page_of w) = Returns p' ∧
        call toggleMenu w = Returns (record_transition p' w) ∧
        same_frame (page_of w) p'.
Proof.
  intros He. destruct (toggleMenu_spec _ He) as (p' & Hr & _ & _ & _ & _ & Hf).
  exists p'. unfold call. by rewrite Hr.
Qed.

Lemma call_closeMenu w :
  elements_exist (page_of w) →
  ∃ p', closeMenu (page_of w) = Returns p' ∧
        call closeMenu w = Returns (record_transition p' w) ∧
        closed p' ∧ same_frame (page_of w) p'.
Proof.
  intros He. destruct (closeMenu_spec _ He) as (p' & Hr & Hc & Hf).
  exists p'. unfold call. by rewrite Hr.
Qed.

Lemma close_coherent w :
  coherent w → coherent (settle (call closeMenu w)).
Proof.
  intros Hc. destruct (call_closeMenu w (proj1 Hc)) as (p' & _ & -> & Hcl & Hf).
  simpl. apply coherent_record; [done|apply Hf|by apply closed_agree].
Qed.

Lemma close_ready w : ready w → ready (settle (call closeMenu w)).
Proof.
  intros Hr. destruct (call_closeMenu w (proj1 (proj1 Hr))) as (p' & _ & -> & _ & Hf).
  simpl. by apply ready_record.
Qed.

Lemma handler_coherent h path key w :
  coherent w → coherent (settle (run_handler h path key w)).
Proof.
  intros Hc. destruct h; simpl.
  - destruct (call_toggleMenu w (proj1 Hc)) as (p' & Hr & -> & Hf).
    destruct (toggleMenu_agree _ _ (proj1 Hc) (proj1 (proj2 Hc)) Hr).
    simpl. by apply coherent_record.
  - by apply close_coherent.
  - destruct (nav (page_of w)); [|done].
    destruct (negb (contains_target path) && menu_open (page_of w));
      [by apply close_coherent|done].
  - destruct (bool_decide (key = "Escape") && menu_open (page_of w)); [|done].
    pose proof (close_coherent w Hc) as H.
    destruct (call closeMenu w); simpl in *; done.
  - eapply coherent_ext; [| |exact Hc];
      by destruct (resizeTimer (user w)).
Qed.

(** The resize listener leaves exactly one timer, the new one. *)
Lemma clear_own_timer w :
  timer_inv w → pending (clearTimeout (resizeTimer (user w)) w) = [].
Proof.
  intros [Hp|(x & Hp & Hr)].
  - destruct (resizeTimer (user w)); simpl; by rewrite ?Hp.
  - rewrite Hr. simpl. rewrite Hp, filter_cons.
    by destruct (decide (timer_id x ≠ timer_id x)).
Qed.

Lemma resize_listener w path key :
  timer_inv w →
  settle (run_handler HResize path key w)
  = {| now := now w; next_id := S (next_id w);
       pending := [Timer (next_id w) (now w + 250) ResizeCheck];
       user := {| doc := doc (user w); listeners := listeners (user w);
                  resizeTimer := Some (next_id w);
                  transitions := transitions (user w);
                  uncaught := uncaught (user w) |} |}.
Proof.
  intros Ht. simpl. unfold set_resizeTimer, set_user. simpl.
  rewrite (clear_own_timer w Ht).
  by destruct (resizeTimer (user w)).
Qed.

Lemma handler_ready h path key w :
  ready w → ready (settle (run_handler h path key w)).
Proof.
  intros Hr. destruct h.
  - simpl. destruct (call_toggleMenu w (proj1 (proj1 Hr))) as (p' & _ & -> & Hf).
    simpl. by apply ready_record.
  - by apply close_ready.
  - simpl. destruct (nav (page_of w)); [|done].
    destruct (negb (contains_target path) && menu_open (page_of w));
      [by apply close_ready|done].
  - simpl. destruct (bool_decide (key = "Escape") && menu_open (page_of w)); [|done].
    pose proof (close_ready w Hr) as H.
    destruct (call closeMenu w); simpl in *; done.
  - rewrite (resize_listener w path key (proj2 Hr)).
    destruct Hr as [Hi _]. split; [exact Hi|].
    right. eexists. by split.
Qed.

(** The timer callback moves no clock and registers no timer. *)
Lemma callback_pending c w : pending (run_callback c w) = pending w.
Proof.
  destruct c. simpl. unfold resize_check, call.
  destruct (_ && _); [|done]. by destruct (closeMenu (page_of w)).
Qed.

Lemma callback_now c w : now (run_callback c w) = now w.
Proof.
  destruct c. simpl. unfold resize_check, call.
  destruct (_ && _); [|done]. by destruct (closeMenu (page_of w)).
Qed.

Lemma callback_coherent c w : coherent w → coherent (run_callback c w).
Proof.
  intros Hc. destruct c. simpl. unfold resize_check.
  destruct (_ && _); [by apply close_coherent|done].
Qed.

Lemma callback_ready c w : ready w → ready (run_callback c w).
Proof.
  intros Hc. destruct c. simpl. unfold resize_check.
  destruct (_ && _); [by apply close_ready|done].
Qed.

Lemma fire_coherent x w : coherent w → coherent (fire run_callback x w).
Proof. intros Hc. by apply callback_coherent. Qed.

Lemma fire_ready x w : x ∈ pending w → ready w → ready (fire run_callback x w).
Proof.
  intros Hin [Hi Ht]. apply callback_ready. split; [exact Hi|].
  left. simpl. destruct Ht as [Hp|(y & Hp & _)]; rewrite Hp in *; [done|].
  apply list_elem_of_singleton in Hin as ->. rewrite filter_cons.
  by destruct (decide (timer_id y ≠ timer_id y)).
Qed.

(** ** Invariants of a run *)

Section Preservation.

Variable P : world → Prop.

Hypothesis handler_keeps :
  ∀ h path key w, P w → P (settle (run_handler h path key w)).
Hypothesis width_keeps :
  ∀ width w, P w → P (set_doc (set_innerWidth width (page_of w)) w).
Hypothesis clock_keeps : ∀ t w, P w → P (set_now t w).
Hypothesis fire_keeps :
  ∀ x w, x ∈ pending w → P w → P (fire run_callback x w).

Lemma dispatch_preserves ty path key w : P w → P (dispatch ty path key w).
Proof.
  unfold dispatch. generalize (propagation path) as nodes.
  intros nodes. revert w. induction nodes as [|n nodes IH]; intros w Hw; [done|].
  simpl. apply IH.
  generalize (listeners_on n ty w) as ls. intros ls. revert w Hw.
  induction ls as [|l ls IHl]; intros w Hw; [done|].
  simpl. apply IHl. by apply handler_keeps.
Qed.

Lemma step_preserves e w w' : step e w = Some w' → P w → P w'.
Proof.
  destruct e; simpl.
  - intros [= <-] Hw. by apply dispatch_preserves.
  - intros [= <-] Hw. by apply dispatch_preserves.
  - intros [= <-] Hw. by apply dispatch_preserves, width_keeps.
  - unfold elapse. intros Hadv Hw.
    by eapply (advance_preserves run_callback P clock_keeps fire_keeps).
Qed.

Lemma steps_preserves es w w' : steps es w = Some w' → P w → P w'.
Proof.
  revert w. induction es as [|e es IH]; intros w; simpl.
  - by intros [= <-].
  - destruct (step e w) as [w1|] eqn:E; [|done]. simpl.
    intros Hs Hw. eapply IH; [exact Hs|]. by eapply step_preserves.
Qed.

End Preservation.

(** Every event is handled to its end. *)
Lemma step_total e w : is_Some (step e w).
Proof.
  destruct e; simpl; try by eexists.
  apply elapse_total. intros c r. by rewrite callback_pending.
Qed.

Lemma steps_total es w : is_Some (steps es w).
Proof.
  revert w. induction es as [|e es IH]; intros w; simpl; [by eexists|].
  destruct (step_total e w) as [w1 ->]. simpl. apply IH.
Qed.

Lemma steps_coherent es w w' : steps es w = Some w' → coherent w → coherent w'.
Proof.
  apply steps_preserves.
  - apply handler_coherent.
  - by intros width w0 Hc.
  - by intros t w0 Hc.
  - intros x w0 _. apply fire_coherent.
Qed.

Lemma steps_ready es w w' : steps es w = Some w' → ready w → ready w'.
Proof.
  apply steps_preserves.
  - apply handler_ready.
  - by intros width w0 Hc.
  - by intros t w0 Hc.
  - apply fire_ready.
Qed.

(** *** What [init] leaves *)

Lemma bind_links links w :
  foldl (λ w link, addEventListener link "click" HCloseMenu w) w links
  = set_user {| doc := doc (user w);
                listeners := listeners (user w)
                  ++ map (λ link, Listener link "click" HCloseMenu) links;
                resizeTimer := resizeTimer (user w);
                transitions := transitions (user w);
                uncaught := uncaught (user w) |} w.
Proof.
  revert w. induction links as [|l links IH]; intros w; simpl.
  - rewrite app_nil_r. by destruct w as [? ? ? []].
  - rewrite IH. unfold addEventListener, set_user. simpl.
    by rewrite <- app_assoc.
Qed.

Lemma init_binds p :
  elements_exist p →
  init (fresh p)
  = Returns {| now := 0; next_id := 1; pending := [];
               user := {| doc := p; listeners := bound_listeners (nav__links p);
                          resizeTimer := None; transitions := [];
                          uncaught := 0 |} |}.
Proof.
  intros [[tg Htg] [mn Hmn]]. unfold init.
  change (page_of (fresh p)) with p. rewrite Htg, Hmn.
  rewrite bind_links. unfold addEventListener, set_user, bound_listeners.
  simpl. by rewrite <- !app_assoc.
Qed.

Lemma boot_ready p : elements_exist p → ready (boot p).
Proof.
  intros He. unfold boot. rewrite (init_binds p He). simpl.
  split; [by split|by left].
Qed.

Lemma boot_coherent p : initially_closed p → coherent (boot p).
Proof.
  intros (He & Hm & Ht & Ha & Ho). unfold boot. rewrite (init_binds p He).
  split; [exact He|]. split; [|by apply Forall_nil].
  unfold agree, page_of. simpl. rewrite Hm, Ht.
  repeat split; intros; done.
Qed.

(** ** C1 *)

(** C1: from a page loaded closed, after any sequence of clicks (on the
    toggle, on a menu link, outside the navigation, or anywhere else), key
    presses, resizes and waits, the four reflections of the menu state
    agree, and they agreed after every call of [toggleMenu] and of
    [closeMenu] made on the way: the menu has ['nav__list--open'] iff the
    toggle has ['nav__toggle--open'] iff [aria-expanded] is ["true"] iff
    the body overflow is ["hidden"]. *)
Theorem reflections_agree p es :
  initially_closed p →
  ∃ w, steps es (boot p) = Some w ∧
       agree (page_of w) ∧ Forall agree (transitions (user w)).
Proof.
  intros Hp. destruct (steps_total es (boot p)) as [w Hw].
  exists w. split; [exact Hw|].
  apply (steps_coherent es (boot p) w Hw). by apply boot_coherent.
Qed.

Lemma reflections_agree_witness :
  ∃ w, steps [toggle_click; KeyDown "Escape"; toggle_click; link_click 1;
              toggle_click; Resize 800; Elapse 250; outside_click]
             (boot sample_page) = Some w ∧
       agree (page_of w) ∧ Forall agree (transitions (user w)).
Proof.
  apply reflections_agree. split; [split; eexists; reflexivity|].
  by repeat split.
Defined.

(** ** C2, amended *)

(** C2, amended: in a state where the menu lacks ['nav__list--open'],
    [toggleMenu] adds that class to the menu, sets [aria-expanded] to
    ["true"] and the body overflow to ["hidden"], and toggles
    ['nav__toggle--open'] on the toggle: it adds it when the toggle lacks
    it. In every state reached from a page loaded closed the toggle does
    lack it when the menu does, so there [toggleMenu] gives the open state
    in full. [closeMenu], from any state, leaves both classes absent,
    [aria-expanded] at ["false"] and the body overflow at [""]. *)
Theorem toggleMenu_opens_closeMenu_closes :
  (∀ p, elements_exist p → menu_open p = false →
        ∃ p', toggleMenu p = Returns p' ∧
              menu_open p' = true ∧
              toggle_open p' = negb (toggle_open p) ∧
              aria_expanded p' = Some "true" ∧
              body_overflow p' = "hidden") ∧
  (∀ p0 es w, initially_closed p0 → steps es (boot p0) = Some w →
              menu_open (page_of w) = false →
              ∃ p', toggleMenu (page_of w) = Returns p' ∧ opened p') ∧
  (∀ p, elements_exist p → ∃ p', closeMenu p = Returns p' ∧ closed p').
Proof.
  split; [|split].
  - intros p He Hm.
    destruct (toggleMenu_spec p He) as (p' & Hr & H1 & H2 & H3 & H4 & _).
    rewrite Hm in *. exists p'. by repeat split.
  - intros p0 es w Hp0 Hs Hm.
    destruct (steps_coherent es (boot p0) w Hs (boot_coherent p0 Hp0))
      as (He & Hag & _).
    pose proof (agree_classes _ Hag) as Ht. rewrite Hm in Ht.
    destruct (toggleMenu_spec _ He) as (p' & Hr & H1 & H2 & H3 & H4 & _).
    rewrite Hm in *. rewrite Ht in *. exists p'. by repeat split.
  - intros p He. destruct (closeMenu_spec p He) as (p' & Hr & Hc & _). eauto.
Qed.

Lemma toggleMenu_opens_closeMenu_closes_witness :
  (∃ p', toggleMenu sample_page = Returns p' ∧ menu_open p' = true ∧
         toggle_open p' = true ∧ aria_expanded p' = Some "true" ∧
         body_overflow p' = "hidden") ∧
  (∃ w p', steps [toggle_click; link_click 0] (boot sample_page) = Some w ∧
           toggleMenu (page_of w) = Returns p' ∧ opened p') ∧
  (∃ p', closeMenu sample_open_page = Returns p' ∧ closed p').
Proof.
  destruct toggleMenu_opens_closeMenu_closes as (Hany & Hreached & Hclose).
  split; [|split].
  - apply (Hany sample_page); [split; eexists; reflexivity|reflexivity].
  - assert (∃ w, steps [toggle_click; link_click 0] (boot sample_page) = Some w ∧
                 menu_open (page_of w) = false) as (w & Hs & Hm)
      by (eexists; split; reflexivity).
    destruct (Hreached sample_page [toggle_click; link_click 0] w) as (p' & Hr & Ho);
      [split; [split; eexists; reflexivity|by repeat split]|exact Hs|exact Hm|].
    exists w, p'. split; [exact Hs|]. split; [exact Hr|exact Ho].
  - apply (Hclose sample_open_page). split; eexists; reflexivity.
Defined.

(** ** Keyboard and resize events reach one listener each *)

Lemma handler_listeners h path key w :
  listeners (user (settle (run_handler h path key w))) = listeners (user w).
Proof.
  destruct h; simpl; unfold call.
  - by destruct (toggleMenu (page_of w)).
  - by destruct (closeMenu (page_of w)).
  - destruct (nav (page_of w)); [|done].
    destruct (_ && _); [|done]. by destruct (closeMenu (page_of w)).
  - destruct (_ && _); [|done]. by destruct (closeMenu (page_of w)).
  - by destruct (resizeTimer (user w)).
Qed.

Lemma link_listeners_click n ty (links : list node) :
  ty ≠ "click" →
  filter (λ l, target l = n ∧ on l = ty)
         (map (λ link, Listener link "click" HCloseMenu) links) = [].
Proof.
  intros Hty. induction links as [|l links IH]; [done|].
  simpl. rewrite filter_cons. simpl.
  destruct (decide (l = n ∧ "click" = ty)) as [[_ H]|_]; [by subst|done].
Qed.

Lemma listeners_on_other n ty w links :
  listeners (user w) = bound_listeners links → ty ≠ "click" →
  listeners_on n ty w
  = filter (λ l, target l = n ∧ on l = ty)
           [Listener Document "keydown" HEscape;
            Listener Window "resize" HResize].
Proof.
  intros Hb Hty. unfold listeners_on. rewrite Hb. unfold bound_listeners.
  rewrite !filter_app, link_listeners_click by done.
  rewrite (filter_cons _ (Listener NavToggle _ _)).
  rewrite (filter_cons _ (Listener Document "click" _)). simpl.
  destruct (decide (NavToggle = n ∧ "click" = ty)) as [[_ H]|_]; [by subst|].
  destruct (decide (Document = n ∧ "click" = ty)) as [[_ H]|_]; [by subst|].
  done.
Qed.

Lemma elements_silent ty path key nodes w links :
  listeners (user w) = bound_listeners links → ty ≠ "click" →
  Forall (λ n, n ≠ Document ∧ n ≠ Window) nodes →
  foldl (λ w n,
           foldl (λ w l, settle (run_handler (fn l) path key w))
                 w (listeners_on n ty w))
        w nodes = w.
Proof.
  intros Hb Hty Hall. induction Hall as [|n nodes [Hd Hw] _ IH]; [done|].
  simpl. rewrite (listeners_on_other n ty w links Hb Hty).
  rewrite !filter_cons, filter_nil. simpl.
  destruct (decide (Document = n ∧ _)) as [[H _]|_]; [by subst|].
  destruct (decide (Window = n ∧ _)) as [[H _]|_]; [by subst|].
  exact IH.
Qed.

Lemma propagation_inside path :
  Forall (λ n, n ≠ Document ∧ n ≠ Window)
         (filter (λ n, n ≠ Document ∧ n ≠ Window) path).
Proof. apply Forall_forall. intros n Hn. by apply list_elem_of_filter in Hn as [? _]. Qed.

Lemma document_window_listeners :
  let ls := [Listener Document "keydown" HEscape;
             Listener Window "resize" HResize] in
  filter (λ l, target l = Document ∧ on l = "keydown") ls
  = [Listener Document "keydown" HEscape] ∧
  filter (λ l, target l = Window ∧ on l = "keydown") ls = [] ∧
  filter (λ l, target l = Document ∧ on l = "resize") ls = [] ∧
  filter (λ l, target l = Window ∧ on l = "resize") ls
  = [Listener Window "resize" HResize].
Proof. by repeat split. Qed.

Lemma dispatch_keydown path key w links :
  listeners (user w) = bound_listeners links →
  dispatch "keydown" path key w = settle (run_handler HEscape path key w).
Proof.
  intros Hb. destruct document_window_listeners as (Hdk & Hwk & _ & _).
  unfold dispatch, propagation. rewrite foldl_app.
  rewrite (elements_silent _ _ _ _ _ links Hb) by (done || apply propagation_inside).
  cbn [foldl]. rewrite (listeners_on_other Document "keydown" w links Hb) by done.
  rewrite Hdk. cbn [foldl fn].
  rewrite (listeners_on_other Window "keydown" _ links); [|..|done].
  - by rewrite Hwk.
  - by rewrite handler_listeners.
Qed.

Lemma dispatch_resize path key w links :
  listeners (user w) = bound_listeners links →
  dispatch "resize" path key w = settle (run_handler HResize path key w).
Proof.
  intros Hb. destruct document_window_listeners as (_ & _ & Hdr & Hwr).
  unfold dispatch, propagation. rewrite foldl_app.
  rewrite (elements_silent _ _ _ _ _ links Hb) by (done || apply propagation_inside).
  cbn [foldl]. rewrite (listeners_on_other Document "resize" w links Hb) by done.
  rewrite Hdr. cbn [foldl].
  rewrite (listeners_on_other Window "resize" w links Hb) by done.
  by rewrite Hwr.
Qed.

(** ** C4 *)

(** C4: once [init] has bound the listeners, in every state where the menu
    has ['nav__list--open'] a keydown with key ["Escape"] runs [closeMenu],
    which leaves the closed state in full (both classes absent,
    [aria-expanded] at ["false"], body overflow [""]), and then focuses the
    toggle; in every state where the menu lacks the class, the same key
    changes nothing, the focus included. *)
Theorem escape_closes_and_focuses w :
  initialised w →
  (menu_open (page_of w) = true →
   ∃ p' w', closeMenu (page_of w) = Returns p' ∧
            step (KeyDown "Escape") w = Some w' ∧
            page_of w' = set_activeElement NavToggle p' ∧
            closed (page_of w') ∧
            activeElement (page_of w') = NavToggle) ∧
  (menu_open (page_of w) = false → step (KeyDown "Escape") w = Some w).
Proof.
  intros [He Hb]. split; intros Hm; simpl;
    rewrite (dispatch_keydown _ _ _ _ Hb); simpl; rewrite Hm; simpl.
  - destruct (call_closeMenu w He) as (p' & Hr & -> & Hc & _).
    exists p'. eexists. split; [done|]. split; [reflexivity|].
    split; [reflexivity|]. split; [exact Hc|done].
  - done.
Qed.

Lemma escape_closes_and_focuses_witness :
  (∃ p' w', closeMenu (page_of (boot sample_open_page)) = Returns p' ∧
            step (KeyDown "Escape") (boot sample_open_page) = Some w' ∧
            page_of w' = set_activeElement NavToggle p' ∧
            closed (page_of w') ∧
            activeElement (page_of w') = NavToggle) ∧
  step (KeyDown "Escape") (boot sample_page) = Some (boot sample_page).
Proof.
  split.
  - apply (escape_closes_and_focuses (boot sample_open_page)); [|reflexivity].
    split; [split; eexists; reflexivity|reflexivity].
  - apply (escape_closes_and_focuses (boot sample_page)); [|reflexivity].
    split; [split; eexists; reflexivity|reflexivity].
Defined.

(** ** C6 *)

Lemma dispatch_unbound ty path key w :
  listeners (user w) = [] → dispatch ty path key w = w.
Proof.
  intros Hl. unfold dispatch. generalize (propagation path) as nodes.
  induction nodes as [|n nodes IH]; [done|].
  simpl. unfold listeners_on at 2. rewrite Hl. exact IH.
Qed.

Lemma steps_inert p es w :
  inert p w → ∃ w', steps es w = Some w' ∧ inert p w'.
Proof.
  revert w. induction es as [|e es IH]; intros w Hw; [by exists w|].
  assert (∃ w1, step e w = Some w1 ∧ inert p w1) as (w1 & Hs & H1).
  { destruct Hw as (Hl & Hp & Ht & Hu & Hpg). destruct e; simpl.
    - rewrite dispatch_unbound by done. by exists w.
    - rewrite dispatch_unbound by done. by exists w.
    - rewrite dispatch_unbound by done. eexists. split; [done|].
      repeat split; try done.
      change (set_innerWidth width (page_of w) = set_innerWidth width p).
      by rewrite Hpg.
    - rewrite elapse_idle by done. eexists. split; [done|]. by repeat split. }
  simpl. rewrite Hs. simpl. by apply IH.
Qed.

(** C6: when the page lacks the ['.nav__toggle'] element or the
    ['.nav__list'] element, [init] returns at once without an exception
    and binds no listener; afterwards no event runs [toggleMenu] or
    [closeMenu], no exception is reported, no timer is set, and the page
    stays as it was (the viewport width apart, which a resize sets). *)
Theorem init_without_elements p :
  nav__toggle p = None ∨ nav__list p = None →
  init (fresh p) = Returns (fresh p) ∧
  ∀ es, ∃ w, steps es (boot p) = Some w ∧
             listeners (user w) = [] ∧ pending w = [] ∧
             transitions (user w) = [] ∧ uncaught (user w) = 0 ∧
             page_of w = set_innerWidth (innerWidth (page_of w)) p.
Proof.
  intros Hnone.
  assert (init (fresh p) = Returns (fresh p)) as Hinit.
  { unfold init. change (page_of (fresh p)) with p.
    destruct Hnone as [-> | ->]; [done|]. by destruct (nav__toggle p). }
  split; [exact Hinit|]. intros es. unfold boot. rewrite Hinit. simpl.
  apply steps_inert. repeat split. by destruct p.
Qed.

Lemma init_without_elements_witness :
  let p := {| nav := true; nav__toggle := None;
              nav__list := Some (Element ["nav__list"] ∅);
              nav__links := [NavLink 0]; body_overflow := "";
              activeElement := Body; innerWidth := 500 |} in
  init (fresh p) = Returns (fresh p) ∧
  ∀ es, ∃ w, steps es (boot p) = Some w ∧
             listeners (user w) = [] ∧ pending w = [] ∧
             transitions (user w) = [] ∧ uncaught (user w) = 0 ∧
             page_of w = set_innerWidth (innerWidth (page_of w)) p.
Proof.
  cbv zeta. apply init_without_elements. by left.
Defined.

(** ** C5 *)

Lemma step_resize width w : ready w → step (Resize width) w = Some (armed width w).
Proof.
  intros [[_ Hb] Ht]. simpl.
  rewrite (dispatch_resize _ _ _ (nav__links (page_of w))) by exact Hb.
  by rewrite resize_listener.
Qed.

Lemma armed_ready width w : ready w → ready (armed width w).
Proof.
  intros [[He Hb] _]. split; [by split|]. right. eexists. by split.
Qed.

(** While the gaps stay under 250 ms the burst only moves the width and
    re-arms the timer. *)
Lemma burst_rearms rest :
  ∀ first w,
    ready w → Forall (λ gw : nat * Z, gw.1 < 250) rest →
    ∃ w1, steps (burst first rest) w = Some w1 ∧ ready w1 ∧
          page_of w1 = set_innerWidth (last_width first rest) (page_of w) ∧
          transitions (user w1) = transitions (user w) ∧
          uncaught (user w1) = uncaught (user w) ∧
          ∃ id, pending w1 = [Timer id (now w1 + 250) ResizeCheck].
Proof.
  induction rest as [|[g wd] rest IH]; intros first w Hr Hgaps.
  - exists (armed first w). unfold burst. simpl flat_map.
    cbn [steps]. rewrite step_resize by done. simpl.
    split; [done|]. split; [by apply armed_ready|].
    repeat split. by eexists.
  - apply Forall_cons in Hgaps as [Hg Hgaps]. simpl in Hg.
    pose (w0 := set_now (now w + g) (armed first w)).
    assert (ready w0) as Hr0 by (by apply armed_ready).
    destruct (IH wd w0 Hr0 Hgaps) as (w1 & Hs & Hr1 & Hpg & Htr & Hun & Hpd).
    exists w1. split; [|split; [exact Hr1|]; split; [exact Hpg|]; by repeat split].
    unfold burst in *. simpl flat_map. cbn [steps].
    rewrite step_resize by done. simpl mbind. cbn [option_bind].
    change (step (Elapse g) (armed first w))
      with (elapse run_callback g (armed first w)).
    rewrite (elapse_early run_callback g
               (Timer (next_id w) (now w + 250) ResizeCheck))
      by (done || simpl; lia).
    exact Hs.
Qed.

Lemma resize_check_spec w :
  elements_exist (page_of w) →
  run_callback ResizeCheck w
  = if (768 <=? innerWidth (page_of w))%Z && menu_open (page_of w)
    then record_transition (state_of (closeMenu (page_of w))) w
    else w.
Proof.
  intros He. simpl. unfold resize_check. destruct (_ && _); [|done].
  destruct (call_closeMenu w He) as (p' & Hr & -> & _). by rewrite Hr.
Qed.

Lemma steps_app es1 es2 w :
  steps (es1 ++ es2) w = w' ← steps es1 w; steps es2 w'.
Proof.
  revert w. induction es1 as [|e es1 IH]; intros w; simpl; [done|].
  destruct (step e w); simpl; [apply IH|done].
Qed.

(** C5: once [init] has bound the listeners, take any burst of resize
    events in which each one comes less than 250 ms after the one before,
    and let [q] ms pass after the last one. Before 250 ms have passed the
    page is untouched (only the viewport has its last width). Once they
    have, the timer has run once and is gone: it closed the menu, by one
    call of [closeMenu], exactly when the last width is at least 768 and
    the menu has ['nav__list--open']; otherwise it changed nothing. *)
Theorem resize_debounced w first rest q :
  ready w → Forall (λ gw : nat * Z, gw.1 < 250) rest →
  let width := last_width first rest in
  let p := set_innerWidth width (page_of w) in
  ∃ w', steps (burst first rest ++ [Elapse q]) w = Some w' ∧
        uncaught (user w') = uncaught (user w) ∧
        if q <? 250 then
          page_of w' = p ∧ transitions (user w') = transitions (user w)
        else
          pending w' = [] ∧
          if (768 <=? width)%Z && menu_open (page_of w) then
            ∃ p', closeMenu p = Returns p' ∧ closed p' ∧
                  page_of w' = p' ∧
                  transitions (user w') = transitions (user w) ++ [p']
          else
            page_of w' = p ∧ transitions (user w') = transitions (user w).
Proof.
  intros Hr Hgaps width p.
  destruct (burst_rearms rest first w Hr Hgaps)
    as (w1 & Hs & Hr1 & Hpg & Htr & Hun & id & Hpd).
  rewrite steps_app, Hs. simpl.
  destruct (Nat.ltb_spec q 250) as [Hq|Hq].
  - rewrite (elapse_early run_callback q _ w1 Hpd) by (simpl; lia).
    eexists. split; [done|]. by repeat split.
  - rewrite (elapse_due run_callback callback_now q _ w1 Hpd)
      by (by rewrite callback_pending) || (simpl; lia).
    eexists. split; [done|]. cbn [callback due].
    set (w2 := set_now (now w1 + 250) (set_pending [] w1)).
    assert (page_of w2 = p) as Hp2 by exact Hpg.
    assert (elements_exist (page_of w2)) as He2 by apply Hr1.
    rewrite (resize_check_spec w2 He2), Hp2.
    change (innerWidth p) with width.
    change (menu_open p) with (menu_open (page_of w)).
    destruct ((768 <=? width)%Z && menu_open (page_of w)).
    + rewrite Hp2 in He2.
      destruct (closeMenu_spec p He2) as (p' & Hc & Hcl & _).
      rewrite Hc. simpl. split; [done|]. split; [done|].
      exists p'. rewrite Htr. split; [done|]. split; [exact Hcl|]. by split.
    + simpl. split; [done|]. split; [done|].
      split; [exact Hpg|exact Htr].
Qed.

Lemma resize_debounced_witness :
  let w := boot sample_open_page in
  ∃ w', steps (burst 700 [(100, 760%Z); (249, 900%Z)] ++ [Elapse 250]) w
        = Some w' ∧
        uncaught (user w') = 0 ∧ pending w' = [] ∧
        ∃ p', closeMenu (set_innerWidth 900 sample_open_page) = Returns p' ∧
              closed p' ∧ page_of w' = p' ∧ transitions (user w') = [p'].
Proof.
  cbv zeta.
  destruct (resize_debounced (boot sample_open_page) 700
              [(100, 760%Z); (249, 900%Z)] 250)
    as (w' & Hs & Hu & H).
  - split; [split; [split; eexists; reflexivity|reflexivity]|by left].
  - repeat constructor; simpl; lia.
  - exists w'. split; [exact Hs|]. split; [exact Hu|]. exact H.
Defined.

(** ** [debounce] *)

Import Utils.

Section DebounceFacts.

Context {A : Type}.
Variable wait : nat.

Lemma later_now c (r : dworld A) : now (run_later c r) = now r.
Proof. destruct c. simpl. unfold later. by destruct (timeout (user r)). Qed.

Lemma later_pending c (r : dworld A) :
  pending r = [] → pending (run_later c r) = [].
Proof.
  intros Hp. destruct c. simpl. unfold later.
  destruct (timeout (user r)); simpl; by rewrite Hp.
Qed.

Lemma later_calls args (r : dworld A) :
  calls (user (run_later (Later args) r)) = calls (user r) ++ [(now r, args)].
Proof. simpl. unfold later. by destruct (timeout (user r)). Qed.

(** A call of the wrapper cancels the timer of the call before and leaves
    its own. *)
Lemma executedFunction_waits args (r : dworld A) :
  timeout_inv r → executedFunction wait args r = waiting wait args r.
Proof.
  intros [Hp|(x & Hp & Ht)]; unfold executedFunction, waiting.
  - destruct (timeout (user r)); simpl; by rewrite ?Hp.
  - rewrite Ht. simpl. rewrite Hp, filter_cons.
    by destruct (decide (timer_id x ≠ timer_id x)).
Qed.

Lemma waiting_inv args (r : dworld A) : timeout_inv (waiting wait args r).
Proof. right. eexists. by split. Qed.

(** While the gaps stay under [wait], [func] is not called and the timer
    of the last call is the one pending. *)
Lemma call_burst_waits rest :
  ∀ first (r : dworld A),
    timeout_inv r → Forall (λ ga : nat * A, ga.1 < wait) rest →
    ∃ r1 id,
      play (executedFunction wait) (call_burst first rest) r = Some r1 ∧
      now r1 = now r + span rest ∧
      calls (user r1) = calls (user r) ∧
      pending r1 = [Timer id (now r1 + wait) (Later (last_args first rest))].
Proof.
  induction rest as [|[g a] rest IH]; intros first r Hinv Hgaps.
  - exists (waiting wait first r), (next_id r). unfold call_burst. simpl.
    rewrite executedFunction_waits by done. by repeat split.
  - apply Forall_cons in Hgaps as [Hg Hgaps]. simpl in Hg.
    pose (r0 := set_now (now r + g) (waiting wait first r)).
    assert (timeout_inv r0) as H0 by apply waiting_inv.
    destruct (IH a r0 H0 Hgaps) as (r1 & id & Hs & Hnow & Hcalls & Hpd).
    exists r1, id. split; [|split; [simpl in *; lia|by split]].
    unfold call_burst in *. simpl flat_map. cbn [play act].
    rewrite executedFunction_waits by done. simpl mbind. cbn [option_bind].
    rewrite (elapse_early run_later g
               (Timer (next_id r) (now r + wait) (Later first)))
      by (done || simpl; lia).
    exact Hs.
Qed.

Lemma play_app (f : A → dworld A → dworld A) l1 l2 r :
  play f (l1 ++ l2) r = r' ← play f l1 r; play f l2 r'.
Proof.
  revert r. induction l1 as [|a l1 IH]; intros r; simpl; [done|].
  destruct (act f a r); simpl; [apply IH|done].
Qed.

(** After the burst, [func] is called once, [wait] ms after the last call
    and with its arguments. *)
Lemma call_burst_fires first rest t (r : dworld A) :
  timeout_inv r → Forall (λ ga : nat * A, ga.1 < wait) rest →
  ∃ r',
    play (executedFunction wait) (call_burst first rest ++ [Sleep t]) r
    = Some r' ∧
    calls (user r')
    = calls (user r)
      ++ (if t <? wait then []
          else [(now r + span rest + wait, last_args first rest)]).
Proof.
  intros Hinv Hgaps.
  destruct (call_burst_waits rest first r Hinv Hgaps)
    as (r1 & id & Hs & Hnow & Hcalls & Hpd).
  rewrite play_app, Hs. simpl.
  destruct (Nat.ltb_spec t wait) as [Ht|Ht].
  - rewrite (elapse_early run_later t _ r1 Hpd) by (simpl; lia).
    eexists. split; [done|]. simpl. by rewrite app_nil_r.
  - rewrite (elapse_due run_later later_now t _ r1 Hpd)
      by (by apply later_pending) || (simpl; lia).
    eexists. split; [done|]. cbn [callback due].
    change (calls (user (set_now ?n ?x))) with (calls (user x)).
    rewrite later_calls. simpl. by rewrite Hcalls, Hnow.
Qed.

End DebounceFacts.

(** ** C8 *)

(** C8: take the wrapper answered by [debounce(fn, 100)] and call it five
    times within 50 ms, with no call after. Then [fn] is not called before
    100 ms have passed since the fifth call, and from then on it has been
    called exactly once, 100 ms after the fifth call and with the arguments
    of the fifth call. *)
Theorem debounce_five_calls {A : Type} (a1 a2 a3 a4 a5 : A)
    (g1 g2 g3 g4 t t0 id0 : nat) :
  g1 + g2 + g3 + g4 ≤ 50 →
  ∃ r,
    play (debounce (Some 100))
         [Invoke a1; Sleep g1; Invoke a2; Sleep g2; Invoke a3; Sleep g3;
          Invoke a4; Sleep g4; Invoke a5; Sleep t]
         (created t0 id0) = Some r ∧
    calls (user r)
    = if t <? 100 then []
      else [(t0 + (g1 + g2 + g3 + g4) + 100, a5)].
Proof.
  intros Hspan.
  destruct (call_burst_fires 100 a1 [(g1, a2); (g2, a3); (g3, a4); (g4, a5)]
              t (created t0 id0)) as (r & Hs & Hc).
  - by left.
  - repeat (constructor; [simpl; lia|]). constructor.
  - exists r. split; [exact Hs|]. rewrite Hc. simpl.
    destruct (t <? 100); [done|]. do 2 f_equal. lia.
Qed.

Lemma debounce_five_calls_witness :
  ∃ r,
    play (debounce (Some 100))
         [Invoke "a"; Sleep 10; Invoke "b"; Sleep 10; Invoke "c"; Sleep 10;
          Invoke "d"; Sleep 20; Invoke "e"; Sleep 100]
         (created 1000 1) = Some r ∧
    calls (user r) = [(1150, "e")].
Proof.
  apply (debounce_five_calls "a" "b" "c" "d" "e" 10 10 10 20 100 1000 1).
  simpl. lia.
Defined.

(** ** [copyToClipboard] *)

Section ClipboardFacts.

Context {E : Type}.

(** With [navigator.clipboard], the promise is the one of [writeText]. *)
Lemma copyToClipboard_modern text (writeText : string → promise E) exec
    (s : clip_state) :
  (copyToClipboard text (Navigator (Some writeText) exec) s).1
  = writeText text.
Proof. unfold copyToClipboard. simpl. by destruct (writeText text). Qed.

(** In the fallback, an exception of [execCommand] rejects the promise. *)
Lemma copyToClipboard_fallback_throws text (err : E) (s : clip_state) :
  (copyToClipboard text (Navigator None (ExecThrows err)) s).1
  = Rejected err.
Proof. reflexivity. Qed.

(** In the fallback the textarea is gone at the end, however
    [execCommand] went. *)
Lemma copyToClipboard_fallback_cleans text (exec : exec_result E)
    (s : clip_state) :
  fresh_ids s →
  body_children (copyToClipboard text (Navigator None exec) s).2
  = body_children s.
Proof.
  intros Hfresh.
  assert (filter (λ c, textarea_id c ≠ next_node s) (body_children s ++
            [TextArea (next_node s) text "fixed" "0"]) = body_children s) as H.
  { rewrite filter_app, filter_cons, filter_nil. simpl.
    destruct (decide (next_node s ≠ next_node s)); [done|].
    rewrite app_nil_r. unfold fresh_ids in Hfresh.
    induction Hfresh as [|c l Hc _ IH]; [done|].
    rewrite filter_cons. destruct (decide (textarea_id c ≠ next_node s)); [|lia].
    by rewrite IH. }
  destruct exec as [[|]|err]; simpl; exact H.
Qed.

End ClipboardFacts.

(** ** C7 *)

(** C7 fails in the fallback: without [navigator.clipboard], when
    [document.execCommand('copy')] answers [false] (nothing was copied),
    [copyToClipboard] removes its textarea and fulfils the promise; the
    clipboard still holds what it held before. *)
Theorem copyToClipboard_fulfils_on_failed_copy :
  let nv : navigator string :=
    {| clipboard_writeText := None; execCommand_copy := ExecReturns false |} in
  let s := {| body_children := []; next_node := 1; focused := None;
              selection := ""; system_clipboard := "before" |} in
  copy_failed "text" nv ∧
  copyToClipboard "text" nv s
  = (Fulfilled,
     {| body_children := []; next_node := 2; focused := None;
        selection := ""; system_clipboard := "before" |}).
Proof. cbv zeta. split; [by simpl|reflexivity]. Qed.

(** * Further properties of the navigation script *)

Lemma contains_remove_ne tok tok' cl :
  tok ≠ tok' →
  ClassList.contains tok (ClassList.remove tok' cl) = ClassList.contains tok cl.
Proof.
  intros Hne. unfold ClassList.contains, ClassList.remove.
  apply bool_decide_ext. rewrite list_elem_of_filter. tauto.
Qed.

Lemma contains_toggle_ne tok tok' cl :
  tok ≠ tok' →
  ClassList.contains tok (ClassList.toggle tok' cl).2 = ClassList.contains tok cl.
Proof.
  intros Hne. unfold ClassList.toggle.
  destruct (ClassList.contains tok' cl); simpl.
  - by apply contains_remove_ne.
  - unfold ClassList.contains. apply bool_decide_ext. set_solver.
Qed.

(** X1: [toggleMenu] and [closeMenu] touch nothing but the two modifier classes
    and [aria-expanded]: every other class of the menu and of the toggle
    keeps its presence, every other attribute of the toggle keeps its
    value, and the attributes of the menu are as before. *)
Theorem other_classes_and_attributes_kept p p' tok name :
  tok ≠ "nav__list--open" → tok ≠ "nav__toggle--open" →
  name ≠ "aria-expanded" →
  toggleMenu p = Returns p' ∨ closeMenu p = Returns p' →
  has_class tok (nav__list p') = has_class tok (nav__list p) ∧
  has_class tok (nav__toggle p') = has_class tok (nav__toggle p) ∧
  attribute_of name (nav__toggle p') = attribute_of name (nav__toggle p) ∧
  attributes <$> nav__list p' = attributes <$> nav__list p.
Proof.
  intros Hm Ht Hn Hcall.
  unfold toggleMenu, closeMenu in Hcall.
  destruct (nav__list p) as [mn|] eqn:Hmn; [|by destruct Hcall].
  destruct (nav__toggle p) as [tg|] eqn:Htg.
  2:{ destruct Hcall as [H|H]; [|done].
      by destruct (ClassList.toggle "nav__list--open" (classList mn)). }
  pose proof (contains_toggle_ne tok "nav__list--open" (classList mn) Hm) as Hcm.
  destruct (ClassList.toggle "nav__list--open" (classList mn)) as [isOpen cl].
  destruct Hcall as [[= <-]|[= <-]]; simpl;
    unfold getAttribute; simpl; rewrite lookup_insert_ne by done;
    rewrite ?contains_toggle_ne, ?contains_remove_ne by done; done.
Qed.

Lemma other_classes_and_attributes_kept_witness :
  ∃ p', toggleMenu sample_open_page = Returns p' ∧
        has_class "nav__list" (nav__list p') = true ∧
        has_class "nav__toggle" (nav__toggle p') = true.
Proof.
  eexists. split; [reflexivity|].
  destruct (other_classes_and_attributes_kept sample_open_page _
              "nav__list" "id" ltac:(done) ltac:(done) ltac:(done)
              (or_introl eq_refl)) as (H1 & _).
  destruct (other_classes_and_attributes_kept sample_open_page _
              "nav__toggle" "id" ltac:(done) ltac:(done) ltac:(done)
              (or_introl eq_refl)) as (_ & H2 & _).
  split; [by rewrite H1|by rewrite H2].
Defined.

(** ** Clicks *)

Lemma link_listeners_on n (links : list node) :
  filter (λ l, target l = n ∧ on l = "click")
         (map (λ link, Listener link "click" HCloseMenu) links)
  = map (λ link, Listener link "click" HCloseMenu) (filter (λ l, l = n) links).
Proof.
  induction links as [|l links IH]; [done|].
  simpl. rewrite !filter_cons. simpl.
  destruct (decide (l = n ∧ "click" = "click")) as [[-> _]|Hne].
  - destruct (decide (n = n)); [|done]. simpl. by rewrite IH.
  - destruct (decide (l = n)) as [->|_]; [by destruct Hne|]. exact IH.
Qed.

Lemma listeners_on_click n w links :
  listeners (user w) = bound_listeners links →
  listeners_on n "click" w
  = (if decide (n = NavToggle)
     then [Listener NavToggle "click" HToggleMenu] else [])
    ++ map (λ link, Listener link "click" HCloseMenu)
           (filter (λ l, l = n) links)
    ++ (if decide (n = Document)
        then [Listener Document "click" HOutsideClick] else []).
Proof.
  intros Hb. unfold listeners_on. rewrite Hb. unfold bound_listeners.
  rewrite !filter_app, link_listeners_on. f_equal; [|f_equal].
  - rewrite filter_cons, filter_nil. simpl.
    destruct (decide (NavToggle = n ∧ "click" = "click")) as [[<- _]|Hne].
    + by destruct (decide (NavToggle = NavToggle)).
    + destruct (decide (n = NavToggle)) as [->|_]; [by destruct Hne|done].
  - rewrite !filter_cons, filter_nil. simpl.
    destruct (decide (Document = n ∧ "click" = "click")) as [[<- _]|Hne].
    + simpl. destruct (decide (Document = Document)); [|done].
      by destruct (decide (Document = Document ∧ "keydown" = "click")) as [[_ ?]|_].
    + destruct (decide (n = Document)) as [->|_]; [by destruct Hne|].
      destruct (decide (Document = n ∧ "keydown" = "click")) as [[_ ?]|_]; [done|].
      by destruct (decide (Window = n ∧ "resize" = "click")) as [[_ ?]|_].
Qed.

Lemma no_link_is n links :
  link_nodes links → (∀ i, n ≠ NavLink i) → filter (λ l, l = n) links = [].
Proof.
  intros [_ Hl] Hn. induction links as [|l links IH]; [done|].
  rewrite filter_cons. destruct (decide (l = n)) as [->|_].
  - destruct (Hl n) as [i ->]; [set_solver|]. by destruct (Hn i).
  - apply IH. intros m Hm. apply Hl. set_solver.
Qed.

Lemma one_link_is i links :
  link_nodes links → NavLink i ∈ links →
  filter (λ l, l = NavLink i) links = [NavLink i].
Proof.
  intros [Hnd _] Hin. induction Hnd as [|l links Hnot Hnd IH]; [set_solver|].
  rewrite filter_cons. destruct (decide (l = NavLink i)) as [->|Hne].
  - f_equal. clear IH Hin. induction links as [|m links IH]; [done|].
    rewrite filter_cons. destruct (decide (m = NavLink i)) as [->|_]; [set_solver|].
    apply IH; [set_solver|]. by apply NoDup_cons in Hnd as [_ ?].
  - apply IH. set_solver.
Qed.

Lemma plain_no_listener n w links :
  listeners (user w) = bound_listeners links → link_nodes links →
  plain n = true → listeners_on n "click" w = [].
Proof.
  intros Hb Hl Hp. rewrite (listeners_on_click n w links Hb).
  rewrite (no_link_is n links Hl) by (intros i ->; done).
  destruct (decide (n = NavToggle)) as [->|_]; [done|].
  by destruct (decide (n = Document)) as [->|_].
Qed.

Lemma plain_silent path key nodes w links :
  listeners (user w) = bound_listeners links → link_nodes links →
  Forall (λ n, plain n = true) nodes →
  foldl (λ w n,
           foldl (λ w l, settle (run_handler (fn l) path key w))
                 w (listeners_on n "click" w))
        w nodes = w.
Proof.
  intros Hb Hl Hall. induction Hall as [|n nodes Hn _ IH]; [done|].
  simpl. by rewrite (plain_no_listener n w links Hb Hl Hn).
Qed.

Lemma plain_propagates nodes :
  Forall (λ n, plain n = true) nodes →
  filter (λ n, n ≠ Document ∧ n ≠ Window) nodes = nodes.
Proof.
  intros Hall. induction Hall as [|n nodes Hn _ IH]; [done|].
  rewrite filter_cons, IH.
  destruct (decide (n ≠ Document ∧ n ≠ Window)) as [_|Hne]; [done|].
  exfalso. apply Hne. by split; intros ->.
Qed.

(** The document and the window, at the end of every click. *)
Lemma click_reaches_document path key w links :
  listeners (user w) = bound_listeners links → link_nodes links →
  foldl (λ w n,
           foldl (λ w l, settle (run_handler (fn l) path key w))
                 w (listeners_on n "click" w))
        w [Document; Window]
  = settle (run_handler HOutsideClick path key w).
Proof.
  intros Hb Hl. cbn [foldl].
  rewrite (listeners_on_click Document w links Hb).
  rewrite (no_link_is Document links Hl) by done.
  cbn [foldl fn app map]. destruct (decide (Document = NavToggle)); [done|].
  destruct (decide (Document = Document)); [|done]. cbn [foldl fn app].
  rewrite (listeners_on_click Window _ links) by (by rewrite handler_listeners).
  rewrite (no_link_is Window links Hl) by done.
  destruct (decide (Window = NavToggle)); [done|].
  by destruct (decide (Window = Document)).
Qed.

(** A click on plain nodes only reaches the document listener. *)
Lemma dispatch_click_plain path key w links :
  listeners (user w) = bound_listeners links → link_nodes links →
  Forall (λ n, plain n = true) path →
  dispatch "click" path key w = settle (run_handler HOutsideClick path key w).
Proof.
  intros Hb Hl Hp. unfold dispatch, propagation.
  rewrite plain_propagates by done. rewrite foldl_app.
  rewrite (plain_silent path key path w links) by done.
  by apply (click_reaches_document _ _ _ links).
Qed.

(** A click through one node [x] that carries the one listener [h]. *)
Lemma dispatch_click_through pre x post h key w links :
  listeners (user w) = bound_listeners links → link_nodes links →
  Forall (λ n, plain n = true) pre → Forall (λ n, plain n = true) post →
  x ≠ Document → x ≠ Window →
  (∀ w', listeners (user w') = bound_listeners links →
         listeners_on x "click" w' = [Listener x "click" h]) →
  dispatch "click" (pre ++ x :: post) key w
  = settle (run_handler HOutsideClick (pre ++ x :: post) key
              (settle (run_handler h (pre ++ x :: post) key w))).
Proof.
  intros Hb Hl Hpre Hpost Hd Hw Hx. unfold dispatch, propagation.
  rewrite filter_app, filter_cons, !plain_propagates by done.
  destruct (decide (x ≠ Document ∧ x ≠ Window)) as [_|Hne]; [|by destruct Hne].
  rewrite <- app_assoc, foldl_app.
  rewrite (plain_silent _ key pre w links) by done.
  cbn [app foldl]. rewrite (Hx w Hb). cbn [foldl fn].
  set (w1 := settle (run_handler h _ key w)).
  assert (listeners (user w1) = bound_listeners links) as Hb1
    by (unfold w1; by rewrite handler_listeners).
  rewrite foldl_app. rewrite (plain_silent _ key post w1 links) by done.
  by apply (click_reaches_document _ _ _ links).
Qed.

Lemma toggle_listener w links :
  link_nodes links → listeners (user w) = bound_listeners links →
  listeners_on NavToggle "click" w = [Listener NavToggle "click" HToggleMenu].
Proof.
  intros Hl Hb. rewrite (listeners_on_click NavToggle w links Hb).
  by rewrite (no_link_is NavToggle links Hl).
Qed.

Lemma link_listener i w links :
  link_nodes links → NavLink i ∈ links →
  listeners (user w) = bound_listeners links →
  listeners_on (NavLink i) "click" w = [Listener (NavLink i) "click" HCloseMenu].
Proof.
  intros Hl Hin Hb. rewrite (listeners_on_click (NavLink i) w links Hb).
  by rewrite (one_link_is i links Hl Hin).
Qed.

Lemma sample_links : link_nodes [NavLink 0; NavLink 1; NavLink 2].
Proof.
  split.
  - repeat (constructor; [set_solver|]). constructor.
  - intros n Hn. repeat (apply elem_of_cons in Hn as [->|Hn]; [by eexists|]).
    by apply elem_of_nil in Hn.
Qed.

(** X2: a click on the toggle (or on something inside it) that lies inside
    ['.nav'] runs [toggleMenu] once and nothing else: the page becomes what
    [toggleMenu] answers. *)
Theorem toggle_click_toggles w pre post :
  initialised w → link_nodes (nav__links (page_of w)) →
  nav (page_of w) = true →
  Forall (λ n, plain n = true) pre → Forall (λ n, plain n = true) post →
  Nav ∈ post →
  ∃ p', toggleMenu (page_of w) = Returns p' ∧
        step (Click (pre ++ NavToggle :: post)) w
        = Some (record_transition p' w).
Proof.
  intros [He Hb] Hl Hnav Hpre Hpost Hin.
  destruct (call_toggleMenu w He) as (p' & Hr & Hc & Hf).
  exists p'. split; [exact Hr|]. cbn [step].
  rewrite (dispatch_click_through pre NavToggle post HToggleMenu "" w
             (nav__links (page_of w))); try done.
  2:{ intros w' Hb'. by apply (toggle_listener w' (nav__links (page_of w))). }
  cbn [run_handler]. rewrite Hc. cbn [settle].
  change (page_of (record_transition p' w)) with p'.
  destruct Hf as (-> & _). rewrite Hnav.
  assert (contains_target (pre ++ NavToggle :: post) = true) as ->.
  { apply bool_decide_eq_true. set_solver. }
  done.
Qed.

Lemma toggle_click_toggles_witness :
  ∃ p', toggleMenu sample_page = Returns p' ∧
        step toggle_click (boot sample_page)
        = Some (record_transition p' (boot sample_page)).
Proof.
  apply (toggle_click_toggles (boot sample_page) [] [Nav; Body]).
  - split; [split; eexists; reflexivity|reflexivity].
  - apply sample_links.
  - reflexivity.
  - constructor.
  - repeat (constructor; [reflexivity|]). constructor.
  - set_solver.
Defined.



(** X4: a click on a menu link (or on something inside it) leaves the closed
    state in full, whatever the state before and wherever the link lies. *)
Theorem link_click_closes w pre post i :
  initialised w → link_nodes (nav__links (page_of w)) →
  NavLink i ∈ nav__links (page_of w) →
  Forall (λ n, plain n = true) pre → Forall (λ n, plain n = true) post →
  ∃ w', step (Click (pre ++ NavLink i :: post)) w = Some w' ∧
        closed (page_of w').
Proof.
  intros [He Hb] Hl Hin Hpre Hpost.
  destruct (call_closeMenu w He) as (p' & Hr & Hc & Hcl & Hf).
  eexists. split.
  { cbn [step]. by rewrite (dispatch_click_through pre (NavLink i) post
      HCloseMenu "" w (nav__links (page_of w)))
      by (done || intros w' Hb'; by apply (link_listener i w' (nav__links (page_of w)))). }
  cbn [run_handler]. rewrite Hc. cbn [settle].
  change (page_of (record_transition p' w)) with p'.
  destruct (nav p'); [|exact Hcl].
  destruct Hcl as (Hm & Hrest). rewrite Hm, andb_false_r. by split.
Qed.

Lemma link_click_closes_witness :
  ∃ w', step (link_click 1) (boot sample_open_page) = Some w' ∧
        closed (page_of w').
Proof.
  apply (link_click_closes (boot sample_open_page) [] [NavList; Nav; Body] 1).
  - split; [split; eexists; reflexivity|reflexivity].
  - apply sample_links.
  - set_solver.
  - constructor.
  - repeat (constructor; [reflexivity|]). constructor.
Defined.

(** X5: a click that meets neither the toggle nor a menu link, on a page that
    has ['.nav']: inside ['.nav'], or with the menu closed, it changes
    nothing; outside ['.nav'] with the menu open it runs [closeMenu] once,
    which leaves the closed state in full. *)
Theorem click_elsewhere w path :
  initialised w → link_nodes (nav__links (page_of w)) →
  nav (page_of w) = true → Forall (λ n, plain n = true) path →
  (Nav ∈ path ∨ menu_open (page_of w) = false →
   step (Click path) w = Some w) ∧
  (Nav ∉ path → menu_open (page_of w) = true →
   ∃ p', closeMenu (page_of w) = Returns p' ∧ closed p' ∧
         step (Click path) w = Some (record_transition p' w)).
Proof.
  intros [He Hb] Hl Hnav Hp.
  assert (step (Click path) w
          = Some (settle (run_handler HOutsideClick path "" w))) as ->.
  { cbn [step]. by rewrite (dispatch_click_plain path "" w (nav__links (page_of w))). }
  cbn [run_handler]. rewrite Hnav. split.
  - intros [Hin|Hm].
    + assert (contains_target path = true) as ->
        by (by apply bool_decide_eq_true).
      done.
    + by rewrite Hm, andb_false_r.
  - intros Hout Hm.
    assert (contains_target path = false) as ->
      by (by apply bool_decide_eq_false).
    rewrite Hm. cbn [negb andb].
    destruct (call_closeMenu w He) as (p' & Hr & -> & Hcl & _).
    exists p'. split; [done|]. split; [exact Hcl|done].
Qed.

Lemma click_elsewhere_witness :
  step (Click [NavList; Nav; Body]) (boot sample_open_page)
  = Some (boot sample_open_page) ∧
  ∃ p', closeMenu sample_open_page = Returns p' ∧ closed p' ∧
        step outside_click (boot sample_open_page)
        = Some (record_transition p' (boot sample_open_page)).
Proof.
  split.
  - apply (click_elsewhere (boot sample_open_page) [NavList; Nav; Body]).
    + split; [split; eexists; reflexivity|reflexivity].
    + apply sample_links.
    + reflexivity.
    + repeat (constructor; [reflexivity|]). constructor.
    + left. set_solver.
  - apply (click_elsewhere (boot sample_open_page) [Body]).
    + split; [split; eexists; reflexivity|reflexivity].
    + apply sample_links.
    + reflexivity.
    + repeat (constructor; [reflexivity|]). constructor.
    + set_solver.
    + reflexivity.
Defined.

(** X6: on a page that has the toggle and the menu but no ['.nav'] element,
    the document listener throws on every click ([nav] is [null]): a click
    that meets neither the toggle nor a link reports one exception and
    changes nothing, so an outside click never closes the menu; a click on
    the toggle still runs [toggleMenu], then reports the exception. *)
Theorem clicks_without_nav w :
  initialised w → link_nodes (nav__links (page_of w)) →
  nav (page_of w) = false →
  (∀ path, Forall (λ n, plain n = true) path →
           step (Click path) w = Some (report w)) ∧
  (∀ pre post,
     Forall (λ n, plain n = true) pre → Forall (λ n, plain n = true) post →
     ∃ p', toggleMenu (page_of w) = Returns p' ∧
           step (Click (pre ++ NavToggle :: post)) w
           = Some (report (record_transition p' w))).
Proof.
  intros [He Hb] Hl Hnav. split.
  - intros path Hp. cbn [step].
    rewrite (dispatch_click_plain path "" w (nav__links (page_of w))) by done.
    cbn [run_handler]. by rewrite Hnav.
  - intros pre post Hpre Hpost.
    destruct (call_toggleMenu w He) as (p' & Hr & Hc & Hf).
    exists p'. split; [exact Hr|]. cbn [step].
    rewrite (dispatch_click_through pre NavToggle post HToggleMenu "" w
               (nav__links (page_of w))); try done.
    2:{ intros w' Hb'. by apply (toggle_listener w' (nav__links (page_of w))). }
    cbn [run_handler]. rewrite Hc. cbn [settle].
    change (page_of (record_transition p' w)) with p'.
    destruct Hf as (-> & _). by rewrite Hnav.
Qed.

Lemma clicks_without_nav_witness :
  step outside_click (boot sample_page_without_nav)
  = Some (report (boot sample_page_without_nav)) ∧
  menu_open (page_of (report (boot sample_page_without_nav))) = true.
Proof.
  split; [|reflexivity].
  apply (clicks_without_nav (boot sample_page_without_nav)).
  - split; [split; eexists; reflexivity|reflexivity].
  - split; [repeat (constructor; [set_solver|]); constructor|].
    intros n Hn. apply list_elem_of_singleton in Hn as ->. by eexists.
  - reflexivity.
  - repeat (constructor; [reflexivity|]). constructor.
Defined.

(** X7: any key but ["Escape"] leaves everything as it is, open menu or not. *)
Theorem other_keys_ignored w key :
  initialised w → key ≠ "Escape" → step (KeyDown key) w = Some w.
Proof.
  intros [_ Hb] Hkey. cbn [step].
  rewrite (dispatch_keydown _ _ _ _ Hb). cbn [run_handler].
  by rewrite bool_decide_eq_false_2.
Qed.

Lemma other_keys_ignored_witness :
  step (KeyDown "Enter") (boot sample_open_page) = Some (boot sample_open_page).
Proof.
  apply other_keys_ignored; [|done].
  split; [split; eexists; reflexivity|reflexivity].
Defined.

(** ** What no run changes *)

Lemma record_layout p w q :
  same_layout p w → same_frame (page_of w) q →
  same_layout p (record_transition q w).
Proof.
  intros (_ & Hn & Hl) (Hn' & Hl' & _ & _ & He').
  split; [exact He'|]. change (page_of (record_transition q w)) with q.
  split; congruence.
Qed.

Lemma close_layout p w :
  same_layout p w →
  same_layout p (settle (call closeMenu w)) ∧
  uncaught (user (settle (call closeMenu w))) = uncaught (user w).
Proof.
  intros Hs. destruct (call_closeMenu w (proj1 Hs)) as (q & _ & -> & _ & Hf).
  split; [by apply record_layout|done].
Qed.

Lemma handler_layout p h path key w :
  same_layout p w →
  same_layout p (settle (run_handler h path key w)) ∧
  (nav p = true →
   uncaught (user (settle (run_handler h path key w))) = uncaught (user w)).
Proof.
  intros Hs. destruct h; cbn [run_handler].
  - destruct (call_toggleMenu w (proj1 Hs)) as (q & _ & -> & Hf).
    split; [by apply record_layout|done].
  - destruct (close_layout p w Hs). by split.
  - rewrite (proj1 (proj2 Hs)). destruct (nav p) eqn:Hnp.
    + destruct (negb (contains_target path) && menu_open (page_of w)).
      * destruct (close_layout p w Hs) as [? ?]. by split.
      * by split.
    + by split.
  - destruct (bool_decide (key = "Escape") && menu_open (page_of w)); [|by split].
    destruct (call_closeMenu w (proj1 Hs)) as (q & _ & -> & _ & Hf).
    split; [|done]. by apply (record_layout p w q).
  - split; [|by destruct (resizeTimer (user w))].
    destruct Hs as (He & Hn & Hl).
    by destruct (resizeTimer (user w)).
Qed.

Lemma callback_layout p c w :
  same_layout p w →
  same_layout p (run_callback c w) ∧
  uncaught (user (run_callback c w)) = uncaught (user w).
Proof.
  intros Hs. destruct c. cbn [run_callback]. unfold resize_check.
  destruct (_ && _); [by apply close_layout|by split].
Qed.

(** X8: from [init] on, whatever happens: the listeners are the ones [init]
    bound (none is added, none removed), at most one timer is pending, and
    the two elements stay where they are. *)
Theorem listeners_and_timer_stay p es :
  elements_exist p →
  ∃ w, steps es (boot p) = Some w ∧
       listeners (user w) = bound_listeners (nav__links p) ∧
       length (pending w) ≤ 1 ∧
       elements_exist (page_of w).
Proof.
  intros He. destruct (steps_total es (boot p)) as [w Hw].
  exists w. split; [exact Hw|].
  assert (ready w ∧ same_layout p w) as [[[_ Hb] Ht] (He' & _ & Hl)].
  { apply (steps_preserves (λ w, ready w ∧ same_layout p w)) with es (boot p);
      [| | | |exact Hw|].
    - intros h path key w0 [Hr Hs]. split; [by apply handler_ready|].
      by apply handler_layout.
    - by intros width w0 [Hr Hs].
    - by intros t w0 [Hr Hs].
    - intros x w0 Hx [Hr Hs]. split; [by apply fire_ready|].
      by apply callback_layout.
    - split; [by apply boot_ready|].
      unfold boot. rewrite (init_binds p He). by split. }
  rewrite Hb, Hl. split; [done|]. split; [|done].
  destruct Ht as [->|(x & -> & _)]; simpl; lia.
Qed.

Lemma listeners_and_timer_stay_witness :
  ∃ w, steps [toggle_click; Resize 800; Elapse 100; Resize 900; Elapse 300;
              KeyDown "Escape"] (boot sample_page) = Some w ∧
       listeners (user w) = bound_listeners (nav__links sample_page) ∧
       length (pending w) ≤ 1 ∧
       elements_exist (page_of w).
Proof.
  apply listeners_and_timer_stay. split; eexists; reflexivity.
Defined.

(** X9: on a page that has ['.nav'], the toggle and the menu, no listener and
    no timer callback of the script ever throws. *)
Theorem no_exception_with_nav p es :
  elements_exist p → nav p = true →
  ∃ w, steps es (boot p) = Some w ∧ uncaught (user w) = 0.
Proof.
  intros He Hnav. destruct (steps_total es (boot p)) as [w Hw].
  exists w. split; [exact Hw|].
  apply (steps_preserves (λ w, same_layout p w ∧ uncaught (user w) = 0))
    with es (boot p); [| | | |exact Hw|].
  - intros h path key w0 [Hs Hu].
    destruct (handler_layout p h path key w0 Hs) as [Hs' Hu'].
    split; [exact Hs'|]. by rewrite Hu'.
  - by intros width w0 [Hs Hu].
  - by intros t w0 [Hs Hu].
  - intros x w0 _ [Hs Hu]. unfold fire.
    destruct (callback_layout p (callback x)
                (set_now (Nat.max (now w0) (due x))
                   (set_pending (filter (λ y, timer_id y ≠ timer_id x)
                                        (pending w0)) w0))) as [Hs' Hu'];
      [exact Hs|].
    split; [exact Hs'|]. by rewrite Hu'.
  - unfold boot. rewrite (init_binds p He). by split.
Qed.

Lemma no_exception_with_nav_witness :
  ∃ w, steps [toggle_click; outside_click; toggle_click; link_click 0;
              Resize 1024; Elapse 250] (boot sample_page) = Some w ∧
       uncaught (user w) = 0.
Proof.
  apply no_exception_with_nav; [split; eexists; reflexivity|reflexivity].
Defined.

(** X10: the resize timer closes an open menu exactly at the widths that
    [getBreakpoint] does not call ["mobile"]. *)
Theorem resize_closes_off_mobile w :
  elements_exist (page_of w) →
  run_callback ResizeCheck w
  = if bool_decide (getBreakpoint (innerWidth (page_of w)) ≠ "mobile")
       && menu_open (page_of w)
    then record_transition (state_of (closeMenu (page_of w))) w
    else w.
Proof.
  intros He. rewrite (resize_check_spec w He).
  replace (bool_decide (getBreakpoint (innerWidth (page_of w)) ≠ "mobile"))
    with (768 <=? innerWidth (page_of w))%Z; [done|].
  unfold getBreakpoint.
  destruct (Z.leb_spec 768 (innerWidth (page_of w))) as [H|H].
  - destruct (Z.ltb_spec (innerWidth (page_of w)) 768); [lia|].
    by destruct (innerWidth (page_of w) <? 1024)%Z.
  - by destruct (Z.ltb_spec (innerWidth (page_of w)) 768); [|lia].
Qed.

Lemma resize_closes_off_mobile_witness :
  let w := set_doc (set_innerWidth 800 sample_open_page) (boot sample_open_page) in
  menu_open (page_of (run_callback ResizeCheck w)) = false.
Proof.
  cbv zeta. rewrite resize_closes_off_mobile; [reflexivity|].
  split; eexists; reflexivity.
Defined.

(** * Further properties of [debounce] and [throttle] *)

(** X11: however many calls the burst has and whatever the wait (250 ms when
    none is given): while each call comes less than the wait after the one
    before, [func] is not called; it is called once, the wait after the
    last call, with the arguments of the last call. *)
Theorem debounce_burst {A : Type} (wait : option nat) (first : A)
    (rest : list (nat * A)) (t t0 id0 : nat) :
  Forall (λ ga : nat * A, ga.1 < default 250 wait) rest →
  ∃ r, play (debounce wait) (call_burst first rest ++ [Sleep t])
            (created t0 id0) = Some r ∧
       calls (user r)
       = if t <? default 250 wait then []
         else [(t0 + span rest + default 250 wait, last_args first rest)].
Proof.
  intros Hgaps.
  destruct (call_burst_fires (default 250 wait) first rest t (created t0 id0))
    as (r & Hs & Hc); [by left|done|].
  exists r. split; [exact Hs|]. by rewrite Hc.
Qed.

Lemma debounce_burst_witness :
  ∃ r, play (debounce None)
            (call_burst "a" [(249, "b"); (0, "c")] ++ [Sleep 250])
            (created 0 1) = Some r ∧
       calls (user r) = [(499, "c")].
Proof.
  apply (debounce_burst None "a" [(249, "b"); (0, "c")] 250 0 1).
  repeat (constructor; [simpl; lia|]). constructor.
Defined.

Section DebouncePacedFacts.

Context {A : Type}.
Variable wait : nat.

Lemma paced_all_honoured (l : list (A * nat)) :
  ∀ r : dworld A,
    pending r = [] → Forall (λ ag : A * nat, wait ≤ ag.2) l →
    ∃ r', play (executedFunction wait) (paced l) r = Some r' ∧
          pending r' = [] ∧
          calls (user r') = calls (user r) ++ honoured wait (now r) l.
Proof.
  induction l as [|[a g] l IH]; intros r Hp Hgaps.
  - exists r. simpl. by rewrite app_nil_r.
  - apply Forall_cons in Hgaps as [Hg Hgaps]. simpl in Hg.
    unfold paced. simpl flat_map. cbn [play act].
    rewrite executedFunction_waits by (by left). simpl mbind. cbn [option_bind].
    rewrite (elapse_due run_later later_now g
               (Timer (next_id r) (now r + wait) (Later a)))
      by (done || (by apply later_pending) || (simpl; lia)).
    cbn [callback due].
    set (r1 := set_now _ (run_later _ _)).
    destruct (IH r1) as (r' & Hs & Hp' & Hc); [by apply later_pending|done|].
    exists r'. split; [exact Hs|]. split; [exact Hp'|].
    rewrite Hc. unfold r1.
    change (calls (user (set_now ?n ?x))) with (calls (user x)).
    rewrite later_calls. simpl. by rewrite <- app_assoc.
Qed.

End DebouncePacedFacts.

(** X12: calls that come at least the wait apart all get through: [func] is
    called for each of them, the wait after it, in order and with its own
    arguments. *)
Theorem debounce_paced_calls {A : Type} (wait : option nat)
    (l : list (A * nat)) (t0 id0 : nat) :
  Forall (λ ag : A * nat, default 250 wait ≤ ag.2) l →
  ∃ r, play (debounce wait) (paced l) (created t0 id0) = Some r ∧
       calls (user r) = honoured (default 250 wait) t0 l.
Proof.
  intros Hgaps.
  destruct (paced_all_honoured (default 250 wait) l (created t0 id0))
    as (r & Hs & _ & Hc); [done|done|].
  exists r. by split.
Qed.

Lemma debounce_paced_calls_witness :
  ∃ r, play (debounce (Some 100)) (paced [("a", 100); ("b", 150)])
            (created 0 1) = Some r ∧
       calls (user r) = [(100, "a"); (200, "b")].
Proof.
  apply (debounce_paced_calls (Some 100) [("a", 100); ("b", 150)] 0 1).
  repeat (constructor; [simpl; lia|]). constructor.
Defined.

Section ThrottleFacts.

Context {A : Type}.
Variable func : A → tworld A → completion (tworld A).
Variable limit : nat.

Lemma release_now c (r : tworld A) : now (run_release c r) = now r.
Proof. by destruct c. Qed.

Lemma release_pending c (r : tworld A) : pending (run_release c r) = pending r.
Proof. by destruct c. Qed.

Lemma spaced_snoc (l : list (nat * A)) y :
  spaced limit l → (∀ x, last l = Some x → x.1 + limit ≤ y.1) →
  spaced limit (l ++ [y]).
Proof.
  induction l as [|x l IH]; intros Hs Hlast; [done|].
  destruct l as [|x' l].
  - simpl. split; [|done]. by apply Hlast.
  - destruct Hs as [Hx Hs]. change ((x :: x' :: l) ++ [y]) with (x :: (x' :: l) ++ [y]).
    cbn [spaced app]. split; [exact Hx|]. apply IH; [exact Hs|].
    intros z Hz. apply Hlast. exact Hz.
Qed.

(** A call while the window is open is dropped. *)
Lemma throttled_closed args (r : tworld A) :
  inThrottle (user r) = true → throttled func limit args r = Returns r.
Proof. intros Hin. unfold throttled. by rewrite Hin. Qed.

(** A call while the window is over, when [func] returns. *)
Lemma throttled_open args (r : tworld A) :
  inThrottle (user r) = false →
  (∀ r', func args r' = Returns r') →
  throttled func limit args r
  = Returns {| now := now r; next_id := S (next_id r);
               pending := pending r ++ [Timer (next_id r) (now r + limit) Release];
               user := {| inThrottle := true;
                          invoked := invoked (user r) ++ [(now r, args)] |} |}.
Proof. intros Hin Hf. unfold throttled. by rewrite Hin, Hf. Qed.

(** A call while the window is over, when [func] throws: the invocation
    is made, and the wrapper stays as it was. *)
Lemma throttled_throws args (r : tworld A) :
  inThrottle (user r) = false →
  (∀ r', func args r' = Throws r') →
  throttled func limit args r
  = Throws (set_user {| inThrottle := false;
                        invoked := invoked (user r) ++ [(now r, args)] |} r).
Proof. intros Hin Hf. unfold throttled. by rewrite Hin, Hf. Qed.

Hypothesis func_returns : returns_quietly func.

Lemma throttled_inv args (r : tworld A) :
  throttle_inv limit r →
  throttle_inv limit (state_of (throttled func limit args r)).
Proof.
  intros [Hs Hst]. destruct (inThrottle (user r)) eqn:Hin.
  - rewrite throttled_closed by done. split; [done|]. cbn [state_of].
    by rewrite Hin.
  - rewrite throttled_open by done. destruct Hst as [Hp Hlast]. split; cbn.
    + by apply spaced_snoc.
    + exists (next_id r), (now r, args). rewrite last_snoc, Hp.
      repeat split; simpl; lia.
Qed.

Lemma sleep_inv ms (r : tworld A) :
  throttle_inv limit r →
  ∃ r', elapse run_release ms r = Some r' ∧ throttle_inv limit r' ∧
        invoked (user r') = invoked (user r).
Proof.
  intros [Hs Hst]. destruct (inThrottle (user r)) eqn:Hin.
  - destruct Hst as (id & x & Hlast & Hp & Hnow).
    destruct (Nat.lt_ge_cases (now r + ms) (x.1 + limit)) as [Hlt|Hge].
    + rewrite (elapse_early run_release ms _ r Hp) by done.
      eexists. split; [done|]. split; [|done]. split; [done|]. cbn.
      rewrite Hin. exists id, x. repeat split; try done. lia.
    + rewrite (elapse_due run_release release_now ms _ r Hp) by done.
      eexists. split; [done|]. split; [|done]. split; [done|]. cbn.
      split; [done|]. intros y Hy. rewrite Hlast in Hy. injection Hy as <-. lia.
  - destruct Hst as [Hp Hlast]. rewrite (elapse_idle run_release ms r Hp).
    eexists. split; [done|]. split; [|done]. split; [done|]. cbn.
    rewrite Hin. split; [done|]. intros y Hy. specialize (Hlast y Hy). lia.
Qed.

Lemma play_inv (l : list (action A)) :
  ∀ r : tworld A,
    throttle_inv limit r →
    ∃ r', throttle_play (throttled func limit) l r = Some r' ∧
          throttle_inv limit r'.
Proof.
  induction l as [|a l IH]; intros r Hinv; [by exists r|].
  cbn [throttle_play]. destruct a as [args|ms]; cbn [throttle_act].
  - simpl. apply IH. by apply throttled_inv.
  - destruct (sleep_inv ms r Hinv) as (r1 & -> & H1 & _). simpl. by apply IH.
Qed.

End ThrottleFacts.

(** Calls made while the window of the first one is open are dropped,
    whatever [func] is. *)
Lemma window_drops {A : Type} (func : A → tworld A → completion (tworld A))
    (limit : nat) (rest : list (nat * A)) :
  ∀ (r : tworld A) x,
    inThrottle (user r) = true → pending r = [x] →
    now r + span rest < due x →
    ∃ r', throttle_play (throttled func limit)
            (flat_map (λ ga, [Sleep ga.1; Invoke ga.2]) rest) r = Some r' ∧
          invoked (user r') = invoked (user r).
Proof.
  induction rest as [|[g a] rest IH]; intros r x Hin Hp Hspan; [by exists r|].
  simpl in Hspan. simpl flat_map. cbn [throttle_play throttle_act].
  rewrite (elapse_early run_release g x r Hp) by lia. simpl mbind.
  cbn [option_bind].
  rewrite (throttled_closed func limit a (set_now (now r + g) r)) by done.
  destruct (IH (set_now (now r + g) r) x) as (r' & Hs & Hc); try done.
  { simpl. lia. }
  exists r'. by split.
Qed.

(** X13: when [func] returns from every call and does not itself call the
    wrapper or touch the timers: whatever the calls and the pauses between
    them, two successive invocations of [func] are at least [limit] ms
    apart (250 ms when no limit is given). *)
Theorem throttle_rate {A : Type} (func : A → tworld A → completion (tworld A))
    (limit : option nat) (l : list (action A)) (t0 id0 : nat) :
  returns_quietly func →
  ∃ r, throttle_play (throttle func limit) l (throttle_created t0 id0) = Some r ∧
       spaced (default 250 limit) (invoked (user r)).
Proof.
  intros Hf.
  destruct (play_inv func (default 250 limit) Hf l (throttle_created t0 id0))
    as (r & Hs & Hinv & _).
  - split; [done|]. simpl. by split.
  - exists r. by split.
Qed.

Lemma throttle_rate_witness :
  ∃ r, throttle_play (throttle (λ _ r, Returns r) (Some 100))
         [Invoke "a"; Sleep 30; Invoke "b"; Sleep 70; Invoke "c"; Sleep 100;
          Invoke "d"]
         (throttle_created 0 1) = Some r ∧
       spaced 100 (invoked (user r)).
Proof. by apply (throttle_rate (λ _ r, Returns r) (Some 100)). Defined.

(** X14: of two calls, the first invokes [func] at once. When [func]
    returns from it, the second call invokes [func] exactly when it comes
    at least [limit] ms after the first, and is dropped otherwise. When
    [func] throws in the first call, the wrapper is left open ([inThrottle]
    is set only after [func.apply]) and the second call invokes [func]
    however early it comes. *)
Theorem throttle_two_calls {A : Type}
    (func : A → tworld A → completion (tworld A))
    (limit : option nat) (a b : A) (g t0 id0 : nat) :
  (∀ r, state_of (func b r) = r) →
  ((∀ r, func a r = Returns r) →
   ∃ r, throttle_play (throttle func limit) [Invoke a; Sleep g; Invoke b]
                      (throttle_created t0 id0) = Some r ∧
        invoked (user r)
        = if g <? default 250 limit then [(t0, a)]
          else [(t0, a); (t0 + g, b)]) ∧
  ((∀ r, func a r = Throws r) →
   ∃ r, throttle_play (throttle func limit) [Invoke a; Sleep g; Invoke b]
                      (throttle_created t0 id0) = Some r ∧
        invoked (user r) = [(t0, a); (t0 + g, b)]).
Proof.
  intros Hb.
  assert (∀ r : tworld A,
            inThrottle (user r) = false →
            invoked (user (state_of (throttled func (default 250 limit) b r)))
            = invoked (user r) ++ [(now r, b)]) as Hsecond.
  { intros r Hin. unfold throttled. rewrite Hin.
    pose proof (Hb (set_user {| inThrottle := false;
                                invoked := invoked (user r) ++ [(now r, b)] |} r))
      as Hq.
    destruct (func b _) as [r1|r1]; simpl in Hq; by subst r1. }
  split; intros Ha; cbn [throttle_play throttle_act]; unfold throttle;
    simpl mbind; cbn [option_bind].
  - rewrite (throttled_open func (default 250 limit) a (throttle_created t0 id0)
               eq_refl Ha).
    cbn [state_of].
    match goal with |- context [elapse _ _ ?r] => set (r1 := r) end.
    assert (pending r1 = [Timer id0 (t0 + default 250 limit) Release]) as Hp by done.
    destruct (Nat.ltb_spec g (default 250 limit)) as [Hlt|Hge].
    + rewrite (elapse_early run_release g _ r1 Hp) by (simpl; lia).
      cbn [mbind option_bind]. rewrite throttled_closed by done.
      eexists. split; [done|]. done.
    + rewrite (elapse_due run_release release_now g _ r1 Hp)
        by (done || simpl; lia).
      cbn [mbind option_bind]. eexists. split; [done|].
      by rewrite Hsecond.
  - rewrite (throttled_throws func (default 250 limit) a (throttle_created t0 id0)
               eq_refl Ha).
    cbn [state_of]. rewrite elapse_idle by done.
    cbn [mbind option_bind]. eexists. split; [done|]. by rewrite Hsecond.
Qed.

Lemma throttle_two_calls_witness :
  (∃ r, throttle_play (throttle (λ _ r, Returns r) (Some 100))
          [Invoke "a"; Sleep 99; Invoke "b"] (throttle_created 0 1) = Some r ∧
        invoked (user r) = [(0, "a")]) ∧
  (∃ r, throttle_play
          (throttle (λ a r, if bool_decide (a = "a") then Throws r
                            else Returns r) (Some 100))
          [Invoke "a"; Sleep 1; Invoke "b"] (throttle_created 0 1) = Some r ∧
        invoked (user r) = [(0, "a"); (1, "b")]).
Proof.
  split.
  - apply (throttle_two_calls (λ _ r, Returns r) (Some 100) "a" "b" 99 0 1);
      done.
  - apply (throttle_two_calls
             (λ a r, if bool_decide (a = "a") then Throws r else Returns r)
             (Some 100) "a" "b" 1 0 1); done.
Defined.

(** X15: a burst: when [func] returns from the first call, that call
    invokes it at once, with its own arguments, and every later call that
    comes before [limit] ms have passed since the first is dropped. *)
Theorem throttle_burst {A : Type} (func : A → tworld A → completion (tworld A))
    (limit : option nat) (first : A)
    (rest : list (nat * A)) (t0 id0 : nat) :
  (∀ r, func first r = Returns r) →
  span rest < default 250 limit →
  ∃ r, throttle_play (throttle func limit) (call_burst first rest)
                     (throttle_created t0 id0) = Some r ∧
       invoked (user r) = [(t0, first)].
Proof.
  intros Hf Hspan. unfold call_burst. cbn [throttle_play throttle_act].
  simpl mbind. cbn [option_bind]. unfold throttle.
  rewrite (throttled_open func (default 250 limit) first
             (throttle_created t0 id0) eq_refl Hf).
  cbn [state_of].
  match goal with |- context [throttle_play _ _ ?r] => set (r1 := r) end.
  destruct (window_drops func (default 250 limit) rest r1
              (Timer id0 (t0 + default 250 limit) Release))
    as (r & Hs & Hc); try done.
  { simpl. lia. }
  exists r. by split.
Qed.

Lemma throttle_burst_witness :
  ∃ r, throttle_play (throttle (λ _ r, Returns r) (Some 100))
                     (call_burst "a" [(40, "b"); (59, "c")])
                     (throttle_created 0 1) = Some r ∧
       invoked (user r) = [(0, "a")].
Proof.
  apply (throttle_burst (λ _ r, Returns r) (Some 100) "a"
           [(40, "b"); (59, "c")] 0 1); [done|].
  simpl. lia.
Defined.

(** * Further properties of the utilities *)

Lemma replace_whitespace_runs_app a b :
  replace_whitespace_runs (a ++ b)
  = replace_whitespace_runs a ++ replace_whitespace_runs b.
Proof.
  induction a as [|c a IH]; [done|]. simpl.
  destruct (is_whitespace c); [exact IH|]. simpl. by rewrite IH.
Qed.

Lemma replace_whitespace_runs_blank ws :
  Forall (λ c, is_whitespace c = true) ws → replace_whitespace_runs ws = [].
Proof.
  intros H. induction H as [|c ws Hc _ IH]; [done|]. simpl. by rewrite Hc.
Qed.

Lemma replace_whitespace_runs_clean s :
  Forall (λ c, is_whitespace c = false) (replace_whitespace_runs s).
Proof.
  induction s as [|c s IH]; [constructor|]. simpl.
  destruct (is_whitespace c) eqn:E; [exact IH|]. by constructor.
Qed.

Lemma replace_whitespace_runs_id s :
  Forall (λ c, is_whitespace c = false) s → replace_whitespace_runs s = s.
Proof.
  intros H. induction H as [|c s Hc _ IH]; [done|]. simpl.
  by rewrite Hc, IH.
Qed.

(** X16: [formatPhoneLink] answers ["tel:"] followed by the phone number with
    every white space code unit taken out and everything else kept in
    order: nothing after the prefix is white space, white space put
    anywhere into the number does not change the link, and a number
    without white space is kept as it is. *)
Theorem formatPhoneLink_strips_whitespace :
  (∀ phone,
     take 4 (formatPhoneLink phone) = code_units "tel:" ∧
     Forall (λ c, is_whitespace c = false) (drop 4 (formatPhoneLink phone))) ∧
  (∀ a ws b,
     Forall (λ c, is_whitespace c = true) ws →
     formatPhoneLink (a ++ ws ++ b) = formatPhoneLink (a ++ b)) ∧
  (∀ phone,
     Forall (λ c, is_whitespace c = false) phone →
     formatPhoneLink phone = code_units "tel:" ++ phone).
Proof.
  split; [|split].
  - intros phone. split; [done|]. apply replace_whitespace_runs_clean.
  - intros a ws b Hws. unfold formatPhoneLink.
    rewrite !replace_whitespace_runs_app.
    by rewrite (replace_whitespace_runs_blank ws Hws).
  - intros phone Hp. unfold formatPhoneLink.
    by rewrite replace_whitespace_runs_id.
Qed.

Lemma formatPhoneLink_strips_whitespace_witness :
  formatPhoneLink (code_units "+34 600" ++ [160%N; 9%N] ++ code_units "123 456")
  = code_units "tel:+34600123456".
Proof.
  destruct formatPhoneLink_strips_whitespace as (_ & Hins & Hid).
  rewrite Hins by (repeat (constructor; [reflexivity|]); constructor).
  reflexivity.
Defined.

(** X17: in both paths of [copyToClipboard]: when the copy went through, the
    promise is fulfilled and the clipboard holds the text; and a promise
    that is rejected means the copy failed and the clipboard is as it
    was. *)
Theorem copyToClipboard_rejection_is_failure {E : Type} (text : string)
    (nv : navigator E) (s : clip_state) :
  (¬ copy_failed text nv →
   (copyToClipboard text nv s).1 = Fulfilled ∧
   system_clipboard (copyToClipboard text nv s).2 = text) ∧
  (∀ err, (copyToClipboard text nv s).1 = Rejected err →
          copy_failed text nv ∧
          system_clipboard (copyToClipboard text nv s).2 = system_clipboard s).
Proof.
  unfold copy_failed, copyToClipboard.
  destruct nv as [[writeText|] exec]; cbn [clipboard_writeText execCommand_copy].
  - destruct (writeText text) as [|e] eqn:Hw; simpl; split; try done.
    intros H. by destruct H.
  - destruct exec as [[|]|e]; simpl; split; try done.
    + intros H. by destruct H.
    + intros H. by destruct H.
Qed.

Lemma copyToClipboard_rejection_is_failure_witness :
  let nv : navigator string :=
    {| clipboard_writeText := None; execCommand_copy := ExecReturns true |} in
  let s := {| body_children := []; next_node := 1; focused := None;
              selection := ""; system_clipboard := "before" |} in
  (copyToClipboard "text" nv s).1 = Fulfilled ∧
  system_clipboard (copyToClipboard "text" nv s).2 = "text".
Proof.
  cbv zeta. apply copyToClipboard_rejection_is_failure. simpl. by intros H.
Defined.

(** X18: in the fallback the textarea is taken out of the body again whether
    [execCommand] answers [true], answers [false] or throws: the children
    of the body are the ones from before the call. *)
Theorem fallback_removes_textarea {E : Type} (text : string)
    (exec : exec_result E) (s : clip_state) :
  fresh_ids s →
  body_children (copyToClipboard text (Navigator None exec) s).2
  = body_children s.
Proof. apply copyToClipboard_fallback_cleans. Qed.

Lemma fallback_removes_textarea_witness :
  let s := {| body_children := [TextArea 3 "left over" "fixed" "0"];
              next_node := 7; focused := Some 3;
              selection := ""; system_clipboard := "" |} in
  body_children
    (copyToClipboard "text" (Navigator None (ExecThrows "denied")) s).2
  = body_children s.
Proof.
  cbv zeta. apply fallback_removes_textarea.
  repeat (constructor; [simpl; lia|]). constructor.
Defined.

(** ** [trapFocus] *)

Section TrapFocusFacts.

Context {El : Type} `{EqDecision El}.
Variable can_focus : El → bool.
Variable focusables : list El.
Variable inside : El → bool.
Variable default_action : key_event → option El → option El.

Lemma first_is_focusable f : firstFocusable focusables = Some f → f ∈ focusables.
Proof.
  unfold firstFocusable. destruct focusables; [done|].
  intros [= ->]. set_solver.
Qed.

Lemma last_is_focusable l : lastFocusable focusables = Some l → l ∈ focusables.
Proof.
  unfold lastFocusable. intros Hl.
  apply last_Some in Hl as [l' ->]. set_solver.
Qed.

(** [focus()] on a match, from a match, ends on a match. *)
Lemma focus_stays target x :
  (∀ t, target = Some t → t ∈ focusables) → x ∈ focusables →
  ∃ y, y ∈ focusables ∧ focus can_focus target (Some x) = Some y.
Proof.
  intros Ht Hx. unfold focus. destruct target as [t|]; [|by exists x].
  destruct (can_focus t); [|by exists x]. exists t. split; [by apply Ht|done].
Qed.

(** On a Tab the listener looks at one end of the list only. *)
Lemma press_tab active shift :
  (∀ a, active = Some a → inside a = true) →
  press can_focus focusables inside default_action active (tab shift)
  = if shift then
      if strict_equal active (firstFocusable focusables)
      then focus can_focus (lastFocusable focusables) active
      else default_action (tab true) active
    else
      if strict_equal active (lastFocusable focusables)
      then focus can_focus (firstFocusable focusables) active
      else default_action (tab false) active.
Proof.
  intros Hin. unfold press, trap_listener. cbn [ev_key ev_shiftKey tab].
  rewrite bool_decide_eq_false_2 by (by intros H).
  destruct active as [a|].
  - rewrite (Hin a eq_refl). destruct shift.
    + by destruct (strict_equal _ _).
    + by destruct (strict_equal _ _).
  - by destruct shift.
Qed.

(** The focusable elements lie in the trapped element. *)
Hypothesis focusables_inside : ∀ x, x ∈ focusables → inside x = true.

(** Left alone, Tab from a focusable element other than the last, and
    Shift+Tab from one other than the first, go to a focusable element. *)
Hypothesis tab_forward :
  ∀ x, x ∈ focusables → Some x ≠ lastFocusable focusables →
       ∃ y, y ∈ focusables ∧ default_action (tab false) (Some x) = Some y.
Hypothesis tab_backward :
  ∀ x, x ∈ focusables → Some x ≠ firstFocusable focusables →
       ∃ y, y ∈ focusables ∧ default_action (tab true) (Some x) = Some y.

Lemma press_tab_stays shift x :
  x ∈ focusables →
  ∃ y, y ∈ focusables ∧
       press can_focus focusables inside default_action (Some x) (tab shift)
       = Some y.
Proof.
  intros Hx. rewrite press_tab by (intros a [= <-]; by apply focusables_inside).
  destruct shift.
  - destruct (strict_equal (Some x) (firstFocusable focusables)) eqn:Heq.
    + apply focus_stays; [apply last_is_focusable|done].
    + apply tab_backward; [done|]. intros Hf. rewrite <- Hf in Heq.
      cbn [strict_equal] in Heq. by rewrite bool_decide_eq_true_2 in Heq.
  - destruct (strict_equal (Some x) (lastFocusable focusables)) eqn:Heq.
    + apply focus_stays; [apply first_is_focusable|done].
    + apply tab_forward; [done|]. intros Hl. rewrite <- Hl in Heq.
      cbn [strict_equal] in Heq. by rewrite bool_decide_eq_true_2 in Heq.
Qed.

Lemma presses_stay (shifts : list bool) :
  ∀ x, x ∈ focusables →
       ∃ y, y ∈ focusables ∧
            foldl (press can_focus focusables inside default_action) (Some x)
                  (map tab shifts) = Some y.
Proof.
  induction shifts as [|shift shifts IH]; intros x Hx; [by exists x|].
  cbn [foldl map]. destruct (press_tab_stays shift x Hx) as (y & Hy & ->).
  by apply IH.
Qed.

End TrapFocusFacts.

(** X19: the trap holds: if the first element that the selector matches can
    take the focus, and the browser's own Tab and Shift+Tab lead from a
    match to a match except where the list ends, then after [trapFocus]
    and any number of Tab and Shift+Tab presses the focus is on one of the
    matches, wherever it was before. *)
Theorem focus_stays_trapped {El : Type} `{EqDecision El}
    (can_focus : El → bool) (focusables : list El) (inside : El → bool)
    (default_action : key_event → option El → option El)
    (active : option El) (shifts : list bool) (f : El) :
  firstFocusable focusables = Some f → can_focus f = true →
  (∀ x, x ∈ focusables → inside x = true) →
  (∀ x, x ∈ focusables → Some x ≠ lastFocusable focusables →
        ∃ y, y ∈ focusables ∧ default_action (tab false) (Some x) = Some y) →
  (∀ x, x ∈ focusables → Some x ≠ firstFocusable focusables →
        ∃ y, y ∈ focusables ∧ default_action (tab true) (Some x) = Some y) →
  ∃ y, y ∈ focusables ∧
       foldl (press can_focus focusables inside default_action)
             (trapFocus can_focus focusables active) (map tab shifts) = Some y.
Proof.
  intros Hf Hcan Hin Hfw Hbw. unfold trapFocus. rewrite Hf.
  cbn [focus]. rewrite Hcan.
  apply presses_stay; try done. by apply first_is_focusable.
Qed.

Lemma focus_stays_trapped_witness :
  ∃ y, y ∈ [1; 2; 3] ∧
       foldl (press (λ n, n <? 3) [1; 2; 3] (λ _, true)
                (λ e a, (λ n, if ev_shiftKey e then n - 1 else n + 1) <$> a))
             (trapFocus (λ n, n <? 3) [1; 2; 3] None)
             (map tab [false; false; false; true; true]) = Some y.
Proof.
  apply (focus_stays_trapped (λ n, n <? 3) [1; 2; 3] (λ _, true) _ None _ 1).
  - done.
  - done.
  - done.
  - intros x Hx Hl.
    repeat (apply elem_of_cons in Hx as [->|Hx]);
      [exists 2|exists 3|done|by apply elem_of_nil in Hx];
      (split; [set_solver|reflexivity]).
  - intros x Hx Hf.
    repeat (apply elem_of_cons in Hx as [->|Hx]);
      [done|exists 1|exists 2|by apply elem_of_nil in Hx];
      (split; [set_solver|reflexivity]).
Defined.

(** X20: at the ends of the list the listener takes over from the browser,
    whatever the browser would have done: Tab on the last match calls
    [focus()] on the first, so the focus goes there if the first can take
    it and stays on the last otherwise; Shift+Tab on the first match
    likewise sends it to the last, or leaves it on the first. *)
Theorem trap_wraps_around {El : Type} `{EqDecision El}
    (can_focus : El → bool) (focusables : list El) (inside : El → bool)
    (default_action : key_event → option El → option El) (f l : El) :
  firstFocusable focusables = Some f → lastFocusable focusables = Some l →
  inside f = true → inside l = true →
  press can_focus focusables inside default_action (Some l) (tab false)
  = Some (if can_focus f then f else l) ∧
  press can_focus focusables inside default_action (Some f) (tab true)
  = Some (if can_focus l then l else f).
Proof.
  intros Hf Hl Hif Hil. unfold press, trap_listener. rewrite Hif, Hil.
  cbn [ev_key ev_shiftKey tab]. rewrite bool_decide_eq_false_2 by (by intros H).
  rewrite Hf, Hl. cbn [strict_equal focus]. rewrite !bool_decide_eq_true_2 by done.
  by destruct (can_focus f), (can_focus l).
Qed.

Lemma trap_wraps_around_witness :
  press (λ x, negb (String.eqb x "c")) ["a"; "b"; "c"] (λ _, true)
        (λ _ _, None) (Some "c") (tab false)
  = Some "a" ∧
  press (λ x, negb (String.eqb x "c")) ["a"; "b"; "c"] (λ _, true)
        (λ _ _, None) (Some "a") (tab true)
  = Some "a".
Proof.
  exact (trap_wraps_around (λ x, negb (String.eqb x "c")) ["a"; "b"; "c"]
           (λ _, true) (λ _ _, None) "a" "c" eq_refl eq_refl eq_refl eq_refl).
Defined.

(** X21: an element without a focusable descendant traps nothing: [trapFocus]
    leaves the focus where it is and the listener never prevents the
    default, so every key does what the browser does with it. *)
Theorem empty_trap_does_nothing {El : Type} `{EqDecision El}
    (can_focus : El → bool) (inside : El → bool)
    (default_action : key_event → option El → option El)
    (active : option El) (e : key_event) :
  trapFocus can_focus [] active = active ∧
  trap_listener can_focus [] e active = (active, false) ∧
  press can_focus [] inside default_action active e = default_action e active.
Proof.
  assert (trap_listener can_focus [] e active = (active, false)) as Hl.
  { unfold trap_listener. destruct (bool_decide (ev_key e ≠ "Tab")); [done|].
    by destruct (ev_shiftKey e), active. }
  split; [done|]. split; [exact Hl|].
  unfold press. destruct active as [a|]; [|done].
  destruct (inside a); [|done]. by rewrite Hl.
Qed.

(** ** [setActiveNavLink] *)

Lemma is_current_spec cur a lp :
  link_pathname a = Some lp → (is_current cur lp = true ↔ current_of cur a).
Proof.
  intros Hlp. unfold is_current, current_of. rewrite Hlp.
  rewrite orb_true_iff, andb_true_iff, !bool_decide_eq_true.
  split; intros [H|[H1 H2]]; try (left; congruence); right; split; congruence.
Qed.

Lemma add_contains tok cl : ClassList.contains tok (ClassList.add tok cl) = true.
Proof.
  unfold ClassList.add. destruct (ClassList.contains tok cl) eqn:E; [done|].
  apply contains_snoc.
Qed.

Lemma mark_active_twice a : mark_active (mark_active a) = mark_active a.
Proof.
  unfold mark_active. simpl. rewrite insert_insert_eq. f_equal.
  unfold ClassList.add at 1. by rewrite add_contains.
Qed.

Lemma marked_from_link cur a lp :
  link_pathname a = Some lp →
  marked_from cur a (if is_current cur lp then mark_active a else a).
Proof.
  intros Hlp. pose proof (is_current_spec cur a lp Hlp) as Hspec.
  destruct (is_current cur lp).
  - assert (current_of cur a) as Hc by (by apply Hspec).
    split; [done|]. split; [|split]; [| |done].
    + split; [by right|]. intros _. apply add_contains.
    + intros _. unfold aria_current. simpl. apply lookup_insert_eq.
  - assert (¬ current_of cur a) as Hc by (intros H; by apply Hspec in H).
    split; [done|]. split; [|split]; [| |done].
    + split; [by left|]. by intros [H|H].
    + done.
Qed.

(** X22: when every anchor has a valid URL, [setActiveNavLink] returns and
    leaves as many anchors, each with its path; an anchor carries
    ['nav__link--active'] afterwards exactly if it carried it before or is
    the current page (same path, or ["/index.html"] while the current path
    is ["/"]; not the other way round); the current ones have
    [aria-current] at ["page"], and the others are untouched (a mark they
    already carried is not cleared). *)
Theorem setActiveNavLink_marks cur links :
  Forall (λ a, is_Some (link_pathname a)) links →
  ∃ links', setActiveNavLink cur links = Returns links' ∧
            Forall2 (marked_from cur) links links'.
Proof.
  intros Hall. induction Hall as [|a links [lp Hlp] _ (links' & IH & Hrel)].
  - exists []. by split.
  - eexists. cbn [setActiveNavLink]. rewrite Hlp, IH. split; [done|].
    constructor; [|exact Hrel]. by apply marked_from_link.
Qed.

Lemma setActiveNavLink_marks_witness :
  let home := Anchor (Some "/index.html") ["nav__link"] ∅ in
  let about := Anchor (Some "/about.html") ["nav__link"; "nav__link--active"] ∅ in
  ∃ links', setActiveNavLink "/" [home; about] = Returns links' ∧
            Forall2 (marked_from "/") [home; about] links'.
Proof.
  cbv zeta. apply setActiveNavLink_marks.
  repeat (constructor; [by eexists|]). constructor.
Defined.

(** X23: running [setActiveNavLink] again on what it returned changes
    nothing. *)
Theorem setActiveNavLink_idempotent cur links links' :
  setActiveNavLink cur links = Returns links' →
  setActiveNavLink cur links' = Returns links'.
Proof.
  revert links'. induction links as [|a links IH]; intros links'.
  - by intros [= <-].
  - cbn [setActiveNavLink]. destruct (link_pathname a) as [lp|] eqn:Hlp; [|done].
    destruct (setActiveNavLink cur links) as [rest|rest]; [|done].
    intros [= <-]. cbn [setActiveNavLink].
    destruct (is_current cur lp) eqn:Hcur.
    + cbn [mark_active link_pathname]. rewrite Hlp, Hcur, (IH rest eq_refl).
      by rewrite mark_active_twice.
    + by rewrite Hlp, Hcur, (IH rest eq_refl).
Qed.

Lemma setActiveNavLink_idempotent_witness :
  let links := [Anchor (Some "/index.html") ["nav__link"] ∅;
                Anchor (Some "/about.html") ["nav__link"] ∅] in
  ∃ links', setActiveNavLink "/" links = Returns links' ∧
            setActiveNavLink "/" links' = Returns links'.
Proof.
  cbv zeta. eexists. split; [reflexivity|].
  apply (setActiveNavLink_idempotent "/"
           [Anchor (Some "/index.html") ["nav__link"] ∅;
            Anchor (Some "/about.html") ["nav__link"] ∅]).
  reflexivity.
Defined.

(** X24: an anchor whose URL is not valid stops the loop with an exception:
    the anchors before it are done, the anchors after it are left as they
    were, current page or not. *)
Theorem setActiveNavLink_stops_at_bad_link cur pre bad post :
  Forall (λ a, is_Some (link_pathname a)) pre →
  link_pathname bad = None →
  ∃ pre', setActiveNavLink cur pre = Returns pre' ∧
          setActiveNavLink cur (pre ++ bad :: post)
          = Throws (pre' ++ bad :: post).
Proof.
  intros Hall Hbad.
  induction Hall as [|a pre [lp Hlp] _ (pre' & IH & Hthrow)].
  - exists []. split; [done|]. cbn [app setActiveNavLink]. by rewrite Hbad.
  - eexists. cbn [app setActiveNavLink]. rewrite Hlp, IH, Hthrow. by split.
Qed.

Lemma setActiveNavLink_stops_at_bad_link_witness :
  let home := Anchor (Some "/about.html") ["nav__link"] ∅ in
  let bad := Anchor None ["nav__link"] ∅ in
  let here := Anchor (Some "/") ["nav__link"] ∅ in
  setActiveNavLink "/" [home; bad; here] = Throws [home; bad; here].
Proof.
  cbv zeta.
  destruct (setActiveNavLink_stops_at_bad_link "/"
              [Anchor (Some "/about.html") ["nav__link"] ∅]
              (Anchor None ["nav__link"] ∅)
              [Anchor (Some "/") ["nav__link"] ∅])
    as (pre' & Hpre & Hthrow).
  - repeat (constructor; [by eexists|]). constructor.
  - reflexivity.
  - injection Hpre as <-. exact Hthrow.
Defined.

(** ** [toast] *)

Lemma toast_load_bound (l : list (timer toast_callback)) :
  toast_load l ≤ 2 * length l.
Proof.
  induction l as [|x l IH]; [done|]. simpl in *.
  destruct (callback x); simpl; lia.
Qed.

Lemma toast_load_app (l1 l2 : list (timer toast_callback)) :
  toast_load (l1 ++ l2) = toast_load l1 + toast_load l2.
Proof. induction l1 as [|x l1 IH]; simpl in *; [done|]. lia. Qed.

Lemma toast_load_filter (x : timer toast_callback) l :
  x ∈ l →
  toast_load (filter (λ y, timer_id y ≠ timer_id x) l)
  + toast_weight (callback x) ≤ toast_load l.
Proof.
  induction l as [|y l IH]; intros Hin; [by apply elem_of_nil in Hin|].
  rewrite filter_cons. apply elem_of_cons in Hin as [<-|Hin].
  - destruct (decide (timer_id x ≠ timer_id x)); [done|]. simpl.
    assert (toast_load (filter (λ y, timer_id y ≠ timer_id x) l) ≤ toast_load l);
      [|lia].
    clear IH. induction l as [|z l IH]; [done|]. rewrite filter_cons.
    destruct (decide (timer_id z ≠ timer_id x)); simpl in *; lia.
  - specialize (IH Hin).
    destruct (decide (timer_id y ≠ timer_id x)); simpl in *; lia.
Qed.

Lemma toast_fire_lightens x (r : runtime toast_state toast_callback) :
  x ∈ pending r →
  toast_load (pending (fire run_toast x r)) < toast_load (pending r).
Proof.
  intros Hin. pose proof (toast_load_filter x (pending r) Hin) as H.
  unfold fire, run_toast. destruct (callback x); simpl in *.
  - rewrite toast_load_app. simpl. lia.
  - lia.
Qed.

Lemma toast_advance_total fuel T (r : runtime toast_state toast_callback) :
  toast_load (pending r) ≤ fuel → is_Some (advance run_toast fuel T r).
Proof.
  revert r. induction fuel as [|fuel IH]; intros r Hload; simpl.
  - unfold next_due. destruct (pending r) as [|y l] eqn:E; [by eexists|].
    simpl in Hload. destruct (callback y); simpl in Hload; lia.
  - destruct (next_due T r) as [x|] eqn:E; [|by eexists].
    apply IH. unfold next_due in E.
    destruct (earliest (pending r)) as [y|] eqn:Ey; [|done].
    destruct (due y <=? T); [|done]. injection E as <-.
    apply earliest_elem in Ey. pose proof (toast_fire_lightens y r Ey). lia.
Qed.

(** Letting time pass always returns, however many toasts are shown. *)
Lemma toast_elapse_total ms (r : runtime toast_state toast_callback) :
  is_Some (toast_elapse ms r).
Proof. apply toast_advance_total, toast_load_bound. Qed.

Lemma exit_only_new (body : list toast_element) id message type :
  Forall (λ el, toast_id el < id) body →
  map (λ el, if bool_decide (toast_id el = id)
             then set_animation "slideOutRight 0.3s ease" el else el)
      (body ++ [new_toast id message type])
  = body ++ [set_animation "slideOutRight 0.3s ease" (new_toast id message type)].
Proof.
  intros Hall. rewrite map_app. f_equal.
  - induction Hall as [|el body Hel _ IH]; [done|]. simpl.
    rewrite bool_decide_eq_false_2 by lia. by rewrite IH.
  - simpl. by rewrite bool_decide_eq_true_2.
Qed.

Lemma remove_only_new (body : list toast_element) el :
  Forall (λ old, toast_id old < toast_id el) body →
  filter (λ old, toast_id old ≠ toast_id el) (body ++ [el]) = body.
Proof.
  intros Hall. rewrite filter_app, filter_cons, filter_nil.
  destruct (decide (toast_id el ≠ toast_id el)); [done|].
  rewrite app_nil_r. induction Hall as [|old body Hold _ IH]; [done|].
  rewrite filter_cons. destruct (decide (toast_id old ≠ toast_id el)); [|lia].
  by rewrite IH.
Qed.

Section SingleTimer.

Context {U cb : Type}.
Variable run : cb → runtime U cb → runtime U cb.

Lemma next_due_single T x (r : runtime U cb) :
  pending r = [x] → next_due T r = if due x <=? T then Some x else None.
Proof. intros Hp. unfold next_due. by rewrite Hp. Qed.

Lemma fire_single x (r : runtime U cb) :
  pending r = [x] →
  fire run x r
  = run (callback x) (set_now (Nat.max (now r) (due x)) (set_pending [] r)).
Proof.
  intros Hp. unfold fire. rewrite Hp, filter_cons, filter_nil.
  by destruct (decide (timer_id x ≠ timer_id x)).
Qed.

Lemma advance_waits fuel T x (r : runtime U cb) :
  pending r = [x] → T < due x →
  advance run fuel T r = Some (set_now (Nat.max (now r) T) r).
Proof.
  intros Hp Hlt. destruct fuel; simpl; rewrite (next_due_single T x r Hp);
    by destruct (Nat.leb_spec (due x) T); [lia|].
Qed.

Lemma advance_fires fuel T x (r : runtime U cb) :
  pending r = [x] → due x ≤ T →
  advance run (S fuel) T r
  = advance run fuel T
      (run (callback x) (set_now (Nat.max (now r) (due x)) (set_pending [] r))).
Proof.
  intros Hp Hle. simpl. rewrite (next_due_single T x r Hp).
  destruct (Nat.leb_spec (due x) T); [|lia]. by rewrite fire_single.
Qed.

Lemma advance_idle fuel T (r : runtime U cb) :
  pending r = [] → advance run fuel T r = Some (set_now (Nat.max (now r) T) r).
Proof. intros Hp. destruct fuel; simpl; unfold next_due; by rewrite Hp. Qed.

End SingleTimer.

(** X25: the life of one toast, shown while no timer is pending: [q] ms later
    it is the last child of the body, with the class, the role, the markup
    and the five fixed style declarations it was made with, and its
    [animation] is ['slideInRight 0.3s ease'] while [q < duration] and
    ['slideOutRight 0.3s ease'] while [duration <= q < duration + 300];
    from [duration + 300] on it is gone and the body is as it was (3000 ms
    and type ['info'] when not given). *)
Theorem toast_lifecycle message type duration q
    (r : runtime toast_state toast_callback) :
  pending r = [] → fresh_toasts r →
  let shown animation :=
    {| toast_id := next_element (user r);
       className := "alert alert--" +:+ default "info" type;
       toast_style := [("position", "fixed"); ("top", "20px");
                       ("right", "20px"); ("z-index", "9999");
                       ("min-width", "300px"); ("animation", animation)];
       role := "alert";
       assigned_innerHTML := "<div class=" +:+ double_quote +:+ "alert__body"
                             +:+ double_quote +:+ ">" +:+ message
                             +:+ "</div>" |} in
  ∃ r', toast_elapse q (toast message type duration r) = Some r' ∧
        toast_body (user r')
        = if q <? default 3000 duration
          then toast_body (user r) ++ [shown "slideInRight 0.3s ease"]
          else if q <? default 3000 duration + 300
          then toast_body (user r) ++ [shown "slideOutRight 0.3s ease"]
          else toast_body (user r).
Proof.
  intros Hp Hfresh shown. unfold toast_elapse.
  set (d := default 3000 duration).
  set (el := new_toast (next_element (user r)) message (default "info" type)).
  assert (shown "slideInRight 0.3s ease" = el) as -> by done.
  assert (shown "slideOutRight 0.3s ease"
          = set_animation "slideOutRight 0.3s ease" el) as -> by done.
  set (r1 := toast message type duration r).
  set (x1 := Timer (next_id r) (now r + d) (BeginExit (next_element (user r)))).
  assert (pending r1 = [x1]) as Hp1 by (unfold r1, toast; simpl; by rewrite Hp).
  assert (toast_body (user r1) = toast_body (user r) ++ [el]) as Hb1 by done.
  rewrite Hp1. change (2 * length [x1]) with 2. change (now r1) with (now r).
  destruct (Nat.ltb_spec q d) as [H1|H1].
  { rewrite (advance_waits run_toast 2 _ x1 r1 Hp1) by (simpl; lia).
    eexists. split; [done|]. exact Hb1. }
  rewrite (advance_fires run_toast 1 _ x1 r1 Hp1) by (simpl; lia).
  set (r2 := run_toast (callback x1) _).
  set (x2 := Timer (S (next_id r)) (now r + d + 300)
                   (RemoveToast (next_element (user r)))).
  assert (pending r2 = [x2]) as Hp2.
  { unfold r2. simpl. by rewrite Nat.max_r by lia. }
  assert (toast_body (user r2)
          = toast_body (user r)
            ++ [set_animation "slideOutRight 0.3s ease" el]) as Hb2.
  { unfold r2. cbn [callback x1 run_toast setTimeout user set_user set_now
                    set_pending toast_body snd].
    rewrite Hb1. by apply exit_only_new. }
  destruct (Nat.ltb_spec q (d + 300)) as [H2|H2].
  { rewrite (advance_waits run_toast 1 _ x2 r2 Hp2) by (simpl; lia).
    eexists. split; [done|]. exact Hb2. }
  rewrite (advance_fires run_toast 0 _ x2 r2 Hp2) by (simpl; lia).
  rewrite advance_idle by done.
  eexists. split; [done|]. cbn [user set_now set_user callback x2 run_toast
                                toast_body set_pending].
  rewrite Hb2. apply (remove_only_new _ (set_animation _ el)). exact Hfresh.
Qed.

Lemma toast_lifecycle_witness :
  ∃ r', toast_elapse 3299 (toast "Saved" None None toast_fresh) = Some r' ∧
        toast_body (user r')
        = [{| toast_id := 1; className := "alert alert--info";
              toast_style := [("position", "fixed"); ("top", "20px");
                              ("right", "20px"); ("z-index", "9999");
                              ("min-width", "300px");
                              ("animation", "slideOutRight 0.3s ease")];
              role := "alert";
              assigned_innerHTML := "<div class=" +:+ double_quote
                                    +:+ "alert__body" +:+ double_quote
                                    +:+ ">Saved</div>" |}].
Proof.
  apply (toast_lifecycle "Saved" None None 3299 toast_fresh); [done|].
  constructor.
Defined.

Lemma toast_inv_timer (r : runtime toast_state toast_callback)
    (l : list (timer toast_callback)) c delay :
  (∀ x y, x ∈ l → y ∈ l → timer_id x = timer_id y → x = y) →
  Forall (λ x, timer_id x < next_id r) l →
  (∀ x y, x ∈ l ++ [Timer (next_id r) delay c] →
          y ∈ l ++ [Timer (next_id r) delay c] →
          timer_id x = timer_id y → x = y) ∧
  Forall (λ x, timer_id x < S (next_id r)) (l ++ [Timer (next_id r) delay c]).
Proof.
  intros Hids Hlt. rewrite Forall_forall in Hlt. split.
  - intros x y Hx Hy Heq.
    apply elem_of_app in Hx as [Hx|Hx]; apply elem_of_app in Hy as [Hy|Hy].
    + by apply Hids.
    + apply list_elem_of_singleton in Hy as ->. specialize (Hlt x Hx).
      simpl in Heq. lia.
    + apply list_elem_of_singleton in Hx as ->. specialize (Hlt y Hy).
      simpl in Heq. lia.
    + apply list_elem_of_singleton in Hx as ->.
      by apply list_elem_of_singleton in Hy as ->.
  - apply Forall_app. split.
    + apply Forall_forall. intros x Hx. specialize (Hlt x Hx). lia.
    + constructor; [simpl; lia|constructor].
Qed.

Lemma toast_inv_show message type duration
    (r : runtime toast_state toast_callback) :
  toast_inv r → toast_inv (toast message type duration r).
Proof.
  intros (Hids & Hlt & Hbody & Hst & Hshown).
  destruct (toast_inv_timer r (pending r)
              (BeginExit (next_element (user r)))
              (now r + default 3000 duration) Hids Hlt) as [Hids' Hlt'].
  split; [exact Hids'|]. split; [exact Hlt'|]. cbn. split; [|split].
  - apply Forall_app. split.
    + eapply Forall_impl; [exact Hbody|]. intros el (x & Hx & Hw).
      exists x. split; [set_solver|done].
    + constructor; [|constructor].
      exists (Timer (next_id r) (now r + default 3000 duration)
                    (BeginExit (next_element (user r)))).
      split; [set_solver|by left].
  - destruct (toast_styles (user r) =? 0); lia.
  - intros _. destruct (Nat.eqb_spec (toast_styles (user r)) 0); lia.
Qed.

Lemma toast_inv_fire x (r : runtime toast_state toast_callback) :
  x ∈ pending r → toast_inv r → toast_inv (fire run_toast x r).
Proof.
  intros Hx (Hids & Hlt & Hbody & Hst & Hshown).
  set (l := filter (λ y, timer_id y ≠ timer_id x) (pending r)).
  assert (∀ y, y ∈ l → y ∈ pending r) as Hsub
    by (intros y Hy; by apply list_elem_of_filter in Hy as [_ ?]).
  assert (∀ y, y ∈ pending r → timer_id y ≠ timer_id x → y ∈ l) as Hkeep
    by (intros y Hy Hne; by apply list_elem_of_filter).
  assert (∀ x y, x ∈ l → y ∈ l → timer_id x = timer_id y → x = y) as Hids'
    by (intros y z Hy Hz; apply Hids; by apply Hsub).
  assert (Forall (λ y, timer_id y < next_id r) l) as Hlt'.
  { apply Forall_forall. intros y Hy. rewrite Forall_forall in Hlt.
    by apply Hlt, Hsub. }
  unfold fire. fold l. destruct (callback x) as [id|id] eqn:Hcb; cbn.
  - destruct (toast_inv_timer r l (RemoveToast id)
                (Nat.max (now r) (due x) + 300) Hids' Hlt') as [Hi Hl].
    split; [exact Hi|]. split; [exact Hl|]. split; [|by split].
    rewrite Forall_forall in Hbody. apply Forall_forall. intros el Hel.
    apply list_elem_of_In, in_map_iff in Hel as (old & <- & Hold).
    apply list_elem_of_In in Hold.
    destruct (Hbody old Hold) as (y & Hy & Hw).
    assert (toast_id (if bool_decide (toast_id old = id)
                      then set_animation "slideOutRight 0.3s ease" old
                      else old) = toast_id old) as Hid
      by (by destruct (bool_decide (toast_id old = id))).
    unfold works_on. rewrite Hid.
    destruct (decide (timer_id y = timer_id x)) as [Heq|Hne].
    + apply (Hids y x Hy Hx) in Heq as ->.
      eexists. split; [apply elem_of_app; right; by apply list_elem_of_singleton|].
      right. simpl. destruct Hw as [Hw|Hw]; rewrite Hcb in Hw; congruence.
    + exists y. split; [apply elem_of_app; left; by apply Hkeep|exact Hw].
  - split; [exact Hids'|]. split; [exact Hlt'|]. split; [|by split].
    rewrite Forall_forall in Hbody. apply Forall_forall. intros el Hel.
    apply list_elem_of_filter in Hel as [Hne Hel].
    destruct (Hbody el Hel) as (y & Hy & Hw).
    destruct (decide (timer_id y = timer_id x)) as [Heq|Hyx].
    + apply (Hids y x Hy Hx) in Heq as ->.
      destruct Hw as [Hw|Hw]; rewrite Hcb in Hw; congruence.
    + exists y. split; [by apply Hkeep|exact Hw].
Qed.

Lemma toast_play_inv actions :
  ∀ r, toast_inv r →
       ∃ r', toast_play actions r = Some r' ∧ toast_inv r'.
Proof.
  induction actions as [|a actions IH]; intros r Hinv; [by exists r|].
  cbn [toast_play]. destruct a as [message type duration|ms]; cbn [toast_act].
  - simpl. apply IH. by apply toast_inv_show.
  - destruct (toast_elapse_total ms r) as [r1 Hr1]. rewrite Hr1. simpl.
    apply IH. unfold toast_elapse in Hr1.
    eapply (advance_preserves run_toast toast_inv); [| |exact Hr1|exact Hinv].
    + by intros t r0 H0.
    + intros x r0. apply toast_inv_fire.
Qed.

(** X26: however toasts are shown and time passes: every toast in the body has
    a pending timer that will start its exit or remove it, so a body with
    no timer pending has no toast; and the keyframes style element is
    never inserted twice. *)
Theorem toasts_never_linger actions :
  ∃ r, toast_play actions toast_fresh = Some r ∧
       Forall (λ el, ∃ x, x ∈ pending r ∧ works_on x el) (toast_body (user r)) ∧
       (pending r = [] → toast_body (user r) = []) ∧
       toast_styles (user r) ≤ 1.
Proof.
  destruct (toast_play_inv actions toast_fresh)
    as (r & Hr & (_ & _ & Hbody & Hst & _)).
  - split; [intros x y Hx; by apply elem_of_nil in Hx|].
    split; [constructor|]. split; [constructor|]. split; simpl; lia.
  - exists r. split; [exact Hr|]. split; [exact Hbody|]. split; [|exact Hst].
    intros Hp. destruct (toast_body (user r)) as [|el body]; [done|].
    apply Forall_cons in Hbody as [(x & Hx & _) _].
    rewrite Hp in Hx. by apply elem_of_nil in Hx.
Qed.

(** ** [lazyLoadImages] *)

(** Loading an image that is as it was or loaded already. *)
Lemma load_image_spec img img' s :
  img_data_src img = Some s → loaded_or_same img img' →
  loaded_or_same img (remove_lazy_class (load_image img')).
Proof.
  intros Hs Hrel. right. exists s. split; [exact Hs|].
  assert ("lazy" ∉ filter (λ c : string, c ≠ "lazy") (img_classList img'))
    as Hout by (rewrite list_elem_of_filter; tauto).
  destruct Hrel as [->|(s' & Hs' & Hsrc & Hno & Hcl & Hload & Hdata)].
  - simpl. rewrite Hs. by repeat (split; [done|]).
  - simpl. rewrite Hdata, Hs. do 2 (split; [done|]).
    split; [|by split]. rewrite Hcl. apply (remove_remove "lazy").
Qed.

Lemma places_spec (P : image → bool) imgs i :
  i ∈ places P imgs → ∃ img, imgs !! i = Some img ∧ P img = true.
Proof.
  unfold places. intros Hi. apply list_elem_of_fmap in Hi as ([j img] & -> & Hin).
  apply list_elem_of_filter in Hin as [HP Hin].
  apply elem_of_lookup_imap in Hin as (k & img' & [= -> ->] & Hk).
  by exists img'.
Qed.

Lemma on_entry_keeps imgs st entry :
  (∃ img, imgs !! entry.1 = Some img ∧ is_Some (img_data_src img)) →
  Forall2 loaded_or_same imgs (images st) →
  Forall (λ i, ∃ img, imgs !! i = Some img ∧ images st !! i = Some img ∧
                      is_Some (img_data_src img)) (observed st) →
  Forall2 loaded_or_same imgs (images (on_entry st entry)) ∧
  Forall (λ i, ∃ img, imgs !! i = Some img ∧
                      images (on_entry st entry) !! i = Some img ∧
                      is_Some (img_data_src img))
         (observed (on_entry st entry)).
Proof.
  intros (img & Himg & Hsrc) Hall Hobs. unfold on_entry.
  destruct entry as [i hit]. simpl in *. destruct hit; [|by split]. simpl. split.
  - apply Forall2_alter_r; [exact Hall|].
    intros x y Hx _ Hrel. destruct Hsrc as [s Hs].
    apply (load_image_spec x y s); [|exact Hrel].
    by rewrite Himg in Hx; injection Hx as <-.
  - rewrite Forall_forall in Hobs. apply Forall_forall. intros j Hj.
    apply list_elem_of_filter in Hj as [Hne Hj].
    destruct (Hobs j Hj) as (img' & H1 & H2 & H3).
    exists img'. by rewrite list_lookup_alter_ne.
Qed.

Lemma deliver_keeps imgs st entries :
  Forall2 loaded_or_same imgs (images st) →
  Forall (λ i, ∃ img, imgs !! i = Some img ∧ images st !! i = Some img ∧
                      is_Some (img_data_src img)) (observed st) →
  Forall2 loaded_or_same imgs (images (deliver st entries)) ∧
  Forall (λ i, ∃ img, imgs !! i = Some img ∧
                      images (deliver st entries) !! i = Some img ∧
                      is_Some (img_data_src img))
         (observed (deliver st entries)).
Proof.
  intros Hall Hobs. unfold deliver.
  assert (Forall (λ e : nat * bool,
            ∃ img, imgs !! e.1 = Some img ∧ is_Some (img_data_src img))
            (filter (λ e, e.1 ∈ observed st) entries)) as Hpre.
  { apply Forall_forall. intros e He. apply list_elem_of_filter in He as [He _].
    rewrite Forall_forall in Hobs. destruct (Hobs _ He) as (img & ? & _ & ?).
    by exists img. }
  remember (filter (λ e, e.1 ∈ observed st) entries) as es eqn:Hes.
  clear Hes. revert st Hall Hobs.
  induction Hpre as [|e es He _ IH]; intros st Hall Hobs; [by split|].
  simpl. destruct (on_entry_keeps imgs st e He Hall Hobs) as [H1 H2].
  by apply IH.
Qed.

(** X27: the fallback, whatever the observer reports and however often: an
    image is left as it was, or its [src] is its [data-src], its classes
    are the ones it had without ['lazy'], and [loading] and [data-src] are
    as they were; the images still observed are untouched and have a
    [data-src]; so an image without [data-src] is never touched, and a
    second report for a loaded image changes nothing. *)
Theorem lazy_fallback_loads_once imgs (batches : list (list (nat * bool))) :
  let st := foldl deliver (lazyLoadImages false imgs) batches in
  Forall2 (λ img img',
             img' = img ∨
             ∃ s, img_data_src img = Some s ∧
                  img_src img' = Some s ∧
                  ("lazy" ∉ img_classList img') ∧
                  img_classList img'
                  = filter (λ c, c ≠ "lazy") (img_classList img) ∧
                  img_loading img' = img_loading img ∧
                  img_data_src img' = img_data_src img)
          imgs (images st) ∧
  Forall (λ i, ∃ img, imgs !! i = Some img ∧ images st !! i = Some img ∧
                      is_Some (img_data_src img)) (observed st).
Proof.
  cbv zeta.
  change (Forall2 loaded_or_same imgs
            (images (foldl deliver (lazyLoadImages false imgs) batches)) ∧
          Forall (λ i, ∃ img, imgs !! i = Some img ∧
                    images (foldl deliver (lazyLoadImages false imgs) batches)
                    !! i = Some img ∧ is_Some (img_data_src img))
                 (observed (foldl deliver (lazyLoadImages false imgs) batches))).
  assert (Forall2 loaded_or_same imgs (images (lazyLoadImages false imgs)) ∧
          Forall (λ i, ∃ img, imgs !! i = Some img ∧
                              images (lazyLoadImages false imgs) !! i = Some img ∧
                              is_Some (img_data_src img))
                 (observed (lazyLoadImages false imgs))) as [Hall Hobs].
  { split.
    - simpl. apply Forall2_same_length_lookup. split; [done|].
      intros i x y Hx Hy. left. congruence.
    - simpl. apply Forall_forall. intros i Hi.
      apply places_spec in Hi as (img & Himg & HP).
      exists img. split; [done|]. split; [done|].
      by apply bool_decide_eq_true in HP. }
  revert Hall Hobs. generalize (lazyLoadImages false imgs) as st.
  induction batches as [|b batches IH]; intros st Hall Hobs; [by split|].
  simpl. destruct (deliver_keeps imgs st b Hall Hobs) as [H1 H2]. by apply IH.
Qed.

(** X28: with native lazy loading: only [src] changes, and only for the images
    with [loading="lazy"] and a non-empty [data-src], whose [src] becomes
    their [data-src]; an image with a [data-src] but another [loading] is
    not loaded; nothing is observed; and a second call changes nothing. *)
Theorem lazy_native_loads_lazy_only imgs :
  let st := lazyLoadImages true imgs in
  observed st = [] ∧
  Forall2 (λ img img',
             img_loading img' = img_loading img ∧
             img_data_src img' = img_data_src img ∧
             img_classList img' = img_classList img ∧
             img_src img'
             = if bool_decide (img_loading img = Some "lazy") && has_data_src img
               then img_data_src img else img_src img)
          imgs (images st) ∧
  images (lazyLoadImages true (images st)) = images st.
Proof.
  cbv zeta. split; [done|]. split.
  - simpl. induction imgs as [|img imgs IH]; [constructor|].
    simpl. constructor; [|exact IH].
    destruct (bool_decide (img_loading img = Some "lazy")); [|done].
    unfold has_data_src. destruct (img_data_src img) as [s|] eqn:Hs; [|done].
    destruct (bool_decide (s ≠ "")); [|done].
    repeat split; simpl; by rewrite ?Hs.
  - simpl. induction imgs as [|img imgs IH]; [done|].
    simpl. rewrite IH. f_equal.
    destruct (bool_decide (img_loading img = Some "lazy")) eqn:Hl; [|by rewrite Hl].
    destruct (has_data_src img) eqn:Hd; [|by rewrite Hl, Hd].
    change (img_loading (load_image img)) with (img_loading img). rewrite Hl.
    change (has_data_src (load_image img)) with (has_data_src img).
    by rewrite Hd.
Qed.
